(** * BubbleSort: generic exchange sort, recursive descent sort and printer

    A shallow embedding of [hw0b_HelloWorld.cpp] and the verification of its
    specification.

    Modelling conventions.
    - A container ([std::vector], [std::list], [std::array], ...) is a
      [list]; an iterator into it is the index of the element it designates
      and dereferencing is list lookup, so that dereferencing [end()] is
      visible as a [Fault].
    - [std::size_t] counters are [nat].  The only subtractions the source
      performs on them are [n - 1] and [n - i - 1], both evaluated under the
      guard [n >= 2] and the loop condition [i < n - 1], where they do not
      wrap around; truncated subtraction on [nat] agrees with them there.
    - [int] elements are [Z].  The comparators only take remainders and
      compare, and [sumDigits] only shrinks its argument, so no [int]
      operation of the source can overflow on values that fit an [int].
    - Loops are run with an explicit step budget; running out of it is the
      outcome [OutOfFuel], which the theorems below show never happens when
      the budget is the length of the container. *)

From Stdlib Require Import ZArith String Ascii DecimalString Lia.
From stdpp Require Import base list sorting.

(** ** Outcomes of imperative code *)

Inductive outcome (S : Type) : Type :=
| Finished (s : S)   (* the call returned, leaving state [s] *)
| Fault              (* an iterator was dereferenced outside the container *)
| OutOfFuel.         (* the step budget ran out before the call returned *)

Arguments Finished {S} s.
Arguments Fault {S}.
Arguments OutOfFuel {S}.

(** Sequencing: the first outcome that is not [Finished] aborts the rest. *)
#[global] Instance outcome_ret : MRet outcome := fun _ s => Finished s.
#[global] Instance outcome_bind : MBind outcome := fun _ _ k m =>
  match m with
  | Finished s => k s
  | Fault => Fault
  | OutOfFuel => OutOfFuel
  end.

(** ** bubbleSort *)

(** What one pass of the outer loop did: ghost instrumentation, not a
    variable of the source. *)
Record pass_stats : Type := mkPass {
  comparisons : nat;   (* calls of [compare] during the pass *)
  exchanges : nat      (* calls of [std::swap] during the pass *)
}.

Section BubbleSort.
Context {A : Type}.
Variable compare : A -> A -> bool.

(** Local variables of the inner [for] loop. *)
Record pass_state : Type := mkPS {
  ps_holder : list A;    (* the container *)
  ps_it : nat;           (* [it], as an index *)
  ps_swapped : bool;     (* [swapped] *)
  ps_compared : nat;     (* ghost: comparisons so far in this pass *)
  ps_exchanged : nat     (* ghost: exchanges so far in this pass *)
}.

(** State of a call of [bubbleSort] between passes. *)
Record sort_state : Type := mkSort {
  holder : list A;             (* the container *)
  log : list pass_stats        (* ghost: one entry per pass run so far *)
}.

(** Body of the inner loop, lines 200-206. *)
Definition inner_body (s : pass_state) : outcome pass_state :=
  let it := ps_it s in
  let next := S it in
  match ps_holder s !! it, ps_holder s !! next with
  | Some a, Some b =>
      if compare a b then
        Finished (mkPS (<[next := a]> (<[it := b]> (ps_holder s)))
                       next true
                       (S (ps_compared s)) (S (ps_exchanged s)))
      else
        Finished (mkPS (ps_holder s) next (ps_swapped s)
                       (S (ps_compared s)) (ps_exchanged s))
  | _, _ => Fault
  end.

(** [for (std::size_t j = 0; j < n - i - 1; ++j)], entered at [j]. *)
Fixpoint inner_loop (fuel n i j : nat) (s : pass_state) : outcome pass_state :=
  match fuel with
  | O => OutOfFuel
  | S fuel' =>
      if j <? n - i - 1 then
        s' ← inner_body s; inner_loop fuel' n i (S j) s'
      else Finished s
  end.

(** [for (std::size_t i = 0; i < n - 1; ++i)], entered at [i]; [budget] is
    the step budget handed to every run of the inner loop. *)
Fixpoint outer_loop (budget fuel n i : nat) (st : sort_state) : outcome sort_state :=
  match fuel with
  | O => OutOfFuel
  | S fuel' =>
      if i <? n - 1 then
        ps ← inner_loop budget n i 0 (mkPS (holder st) 0 false 0 0);
        let st' := mkSort (ps_holder ps)
                          (log st ++ [mkPass (ps_compared ps) (ps_exchanged ps)]) in
        if negb (ps_swapped ps) then Finished st'
        else outer_loop budget fuel' n (S i) st'
      else Finished st
  end.

(** [bubbleSort(holder, compare)] run with a step budget. *)
Definition bubbleSort_fuel (fuel : nat) (l : list A) : outcome sort_state :=
  let n := length l in
  if n <? 2 then Finished (mkSort l [])
  else outer_loop fuel fuel n 0 (mkSort l []).

(** [bubbleSort(holder, compare)]: a budget of [length holder] steps per
    loop is enough, and a larger one changes nothing
    ([bubbleSort_fuel_enough] below). *)
Definition bubbleSort (l : list A) : outcome sort_state :=
  bubbleSort_fuel (length l) l.

Definition total_comparisons (st : sort_state) : nat :=
  sum_list (comparisons <$> log st).

Definition total_exchanges (st : sort_state) : nat :=
  sum_list (exchanges <$> log st).

Definition passes_run (st : sort_state) : nat := length (log st).

(** The comparator's exchange signal is off on every adjacent pair. *)
Definition no_adjacent_exchange (l : list A) : Prop :=
  forall (i : nat) (x y : A),
    l !! i = Some x -> l !! S i = Some y -> compare x y = false.

(** The C++ named requirement on comparators: a strict weak ordering is
    irreflexive, transitive, and its incomparability is transitive. *)
Record StrictWeakOrdering : Prop := mkSWO {
  swo_irrefl : forall x, compare x x = false;
  swo_trans : forall x y z,
    compare x y = true -> compare y z = true -> compare x z = true;
  swo_equiv_trans : forall x y z,
    compare x y = false -> compare y x = false ->
    compare y z = false -> compare z y = false ->
    compare x z = false /\ compare z x = false
}.

End BubbleSort.

Arguments pass_state A : clear implicits.
Arguments sort_state A : clear implicits.


(** ** Comparator functors *)

Module Comparators.
Local Open Scope Z_scope.

(** C++ [%] on [int] truncates towards zero: [Z.rem]; [/] is [Z.quot]. *)

(** [OddFirst::operator()], lines 20-25. *)
Definition OddFirst (a b : Z) : bool :=
  if negb (Z.rem a 2 =? 0) && (Z.rem b 2 =? 0) then false
  else if (Z.rem a 2 =? 0) && negb (Z.rem b 2 =? 0) then true
  else a <? b.

(** [DivisibleBy3First::operator()], lines 35-40. *)
Definition DivisibleBy3First (a b : Z) : bool :=
  if (Z.rem a 3 =? 0) && negb (Z.rem b 3 =? 0) then false
  else if negb (Z.rem a 3 =? 0) && (Z.rem b 3 =? 0) then true
  else a <? b.

(** [EvenFirst::operator()], lines 50-55. *)
Definition EvenFirst (a b : Z) : bool :=
  if (Z.rem a 2 =? 0) && negb (Z.rem b 2 =? 0) then false
  else if negb (Z.rem a 2 =? 0) && (Z.rem b 2 =? 0) then true
  else a <? b.

(** The [while (n > 0)] loop of [SumOfDigits::sumDigits], lines 71-75, with
    a step budget; [None] is an exhausted budget. *)
Fixpoint sumDigits_loop (fuel : nat) (n sum : Z) : option Z :=
  match fuel with
  | O => None
  | S fuel' =>
      if n >? 0 then sumDigits_loop fuel' (Z.quot n 10) (sum + Z.rem n 10)
      else Some sum
  end.

(** Every iteration at least halves [n], so one more step than [n] has
    binary digits is enough ([sumDigits_loop_enough] below). *)
Definition sumDigits_budget (n : Z) : nat := S (S (Z.to_nat (Z.log2 n))).

(** [SumOfDigits::sumDigits], lines 68-77. *)
Definition sumDigits (n : Z) : Z :=
  default 0 (sumDigits_loop (sumDigits_budget n) n 0).

(** [SumOfDigits::operator()], lines 80-83. *)
Definition SumOfDigits (a b : Z) : bool := sumDigits a <? sumDigits b.

(** [std::greater<int>], the default [Comparator] of [bubbleSort] and
    [recursiveSort]. *)
Definition greater (a b : Z) : bool := a >? b.

End Comparators.

(** ** Nested containers *)

(** The C++ type of a value fixes its nesting depth: [ND A 0] is a scalar
    (for which [is_container] is false), [ND A (S d)] a container whose
    [value_type] is [ND A d]. *)
Fixpoint ND (A : Type) (d : nat) : Type :=
  match d with
  | O => A
  | S d' => list (ND A d')
  end.

Section RecursiveSort.
Context {A : Type}.
Variable compare : A -> A -> bool.

(** [for (auto& sub : container) f(sub);] where [f] updates [sub] in
    place: elements are visited left to right and a failing call aborts
    the loop. *)
Fixpoint for_each {X : Type} (f : X -> outcome X) (c : list X) : outcome (list X) :=
  match c with
  | [] => Finished []
  | sub :: rest =>
      sub' ← f sub;
      rest' ← for_each f rest;
      Finished (sub' :: rest')
  end.

(** [recursiveSort(container, compare)], lines 220-235, at the
    instantiation where the container has nesting depth [S d].  The
    [if constexpr] on [is_container<value_type>] is the match on [d]. *)
Fixpoint recursiveSort (d : nat) : ND A (S d) -> outcome (ND A (S d)) :=
  match d with
  | O => fun container =>
      st ← bubbleSort compare container; Finished (holder st)
  | S d' => fun container => for_each (recursiveSort d') container
  end.

(** The flat sequences of scalars of a nested container, left to right. *)
Fixpoint leaves (d : nat) : ND A (S d) -> list (list A) :=
  match d with
  | O => fun container => [container]
  | S d' => fun container => concat (leaves d' <$> container)
  end.

End RecursiveSort.

(** The grouping of a nested container: the same tree with every flat
    sequence of scalars replaced by its length. *)
Fixpoint skeleton {A : Type} (d : nat) : ND A (S d) -> ND nat d :=
  match d with
  | O => fun container => length container
  | S d' => fun container => skeleton d' <$> container
  end.

(** ** Printers *)

Section Printer.
Context {A : Type}.
(** [operator<<] of [std::ostream] on a scalar. *)
Variable show : A -> string.

Local Open Scope string_scope.

(** [std::string(count, ' ')]. *)
Fixpoint spaces (count : nat) : string :=
  match count with
  | O => EmptyString
  | S count' => String " "%char (spaces count')
  end.

Definition newline : string := String (ascii_of_nat 10) EmptyString.

(** [printNDVector(holder, depth)], lines 147-176, appending to the
    characters [os] already written to [std::cout].  The scalar overload
    is the case [d = 0], the container overload the case [d = S d']. *)
Fixpoint printNDVector (d : nat) : ND A d -> nat -> string -> string :=
  match d with
  | O => fun holder depth os =>
      os ++ spaces (depth * 4) ++ show holder
  | S d' => fun holder depth os =>
      let os1 := os ++ spaces (depth * 4) ++ newline ++ "{" in
      let os2 := fold_left (fun o subHolder => printNDVector d' subHolder (depth + 1) o)
                           holder os1 in
      os2 ++ spaces (depth * 4) ++ "}" ++ newline
  end.

(** [printContainer(holder)], lines 110-120. *)
Definition printContainer (holder : list A) (os : string) : string :=
  fold_left (fun o item => o ++ show item ++ " ") holder os ++ newline.

End Printer.

(** [operator<<] on [int]: decimal digits, with a leading minus sign for
    negative values. *)
Definition show_int (n : Z) : string := NilZero.string_of_int (Z.to_int n).


(** ** A functional reading of the loops

    [bubble_pass] and [sort_passes] say what the two loops compute, as
    functions on lists; [inner_loop_bubble_pass] and
    [outer_loop_sort_passes] below prove that the loops compute exactly
    that, so that every property of the functions is one of the code. *)

Section Functional.
Context {A : Type}.
Variable compare : A -> A -> bool.

(** [k] iterations of the inner loop with [it] at the head of [l]: the
    resulting sequence and the number of exchanges. *)
Fixpoint bubble_pass (k : nat) (l : list A) : list A * nat :=
  match k, l with
  | S k', a :: b :: t =>
      if compare a b then
        let r := bubble_pass k' (a :: t) in (b :: r.1, S r.2)
      else
        let r := bubble_pass k' (b :: t) in (a :: r.1, r.2)
  | _, _ => (l, 0)
  end.

(** The passes [i], [i+1], ... of the outer loop, of which at most [r]
    remain: the resulting sequence and the log of the passes run. *)
Fixpoint sort_passes (r n i : nat) (l : list A) : list A * list pass_stats :=
  match r with
  | O => (l, [])
  | S r' =>
      let p := bubble_pass (n - i - 1) l in
      let entry := mkPass (n - i - 1) p.2 in
      if p.2 =? 0 then (p.1, [entry])
      else let q := sort_passes r' n (S i) p.1 in (q.1, entry :: q.2)
  end.

Definition sort_result (l : list A) : list A * list pass_stats :=
  if length l <? 2 then (l, [])
  else sort_passes (length l - 1) (length l) 0 l.

(** "Need not be exchanged", as a relation. *)
Definition keeps (x y : A) : Prop := compare x y = false.

(** Adjacent pairs, by recursion on the list. *)
Fixpoint ordered (l : list A) : Prop :=
  match l with
  | x :: t => match t with
              | y :: _ => compare x y = false /\ ordered t
              | [] => True
              end
  | [] => True
  end.

End Functional.

(** ** The remaining comparators of the source *)

Module StringComparators.
Local Open Scope Z_scope.

(** The value of a [char] once promoted to [int].  Whether plain [char] is
    signed is left to the implementation: [char_signed] says which. *)
Definition char_to_int (char_signed : bool) (c : ascii) : Z :=
  let v := Z.of_nat (nat_of_ascii c) in
  if char_signed && (128 <=? v) then v - 256 else v.

(** [for (char c : a) posA += c - 'a' + 1;], lines 96-97, entered with the
    sum [pos].  The sum is an [int] in the source; on a [short_string] it
    cannot overflow ([AlphabeticalPosition_no_overflow] below). *)
Fixpoint position_loop (char_signed : bool) (s : string) (pos : Z) : Z :=
  match s with
  | EmptyString => pos
  | String c s' =>
      position_loop char_signed s'
        (pos + (char_to_int char_signed c - char_to_int char_signed "a"%char + 1))
  end.

(** [AlphabeticalPosition::operator()], lines 93-99. *)
Definition AlphabeticalPosition (char_signed : bool) (a b : string) : bool :=
  position_loop char_signed a 0 <? position_loop char_signed b 0.

(** Strings short enough for the [int] sums of the loop: each character
    adds between -224 and 159, so below [2^23] characters every partial sum
    is an [int]. *)
Definition short_string (s : string) : Prop :=
  Z.of_nat (String.length s) < 2 ^ 23.


End StringComparators.

Module Lambdas.
Local Open Scope Z_scope.

(** [[](int a, int b) { return a < b; }], line 242 of [main]. *)
Definition less_lambda (a b : Z) : bool := a <? b.

(** [[](int a, int b) { return std::abs(a - 10) > std::abs(b - 10); }],
    line 290 of [main].  On [int] the subtraction is defined for
    [a >= INT_MIN + 10] and [std::abs] for every difference but [INT_MIN];
    there the source computes what this definition does. *)
Definition proximity_lambda (a b : Z) : bool := Z.abs (a - 10) >? Z.abs (b - 10).

(** The [int] values on which [proximity_lambda] is defined in the source. *)
Definition proximity_defined (a : Z) : Prop :=
  - 2 ^ 31 + 10 < a /\ a < 2 ^ 31.

End Lambdas.

(** ** Measures of printed text and of nested containers *)

(** Occurrences of the character [c] in [s]. *)
Fixpoint count_char (c : ascii) (s : string) : nat :=
  match s with
  | EmptyString => 0
  | String c' s' => (if Ascii.eqb c c' then 1 else 0) + count_char c s'
  end.

(** The containers of a value of depth [d]: itself, if it is one, and those
    nested in it. *)
Fixpoint containers {A : Type} (d : nat) : ND A d -> nat :=
  match d with
  | O => fun _ => 0
  | S d' => fun holder => S (sum_list (containers d' <$> holder))
  end.

(** The indentation levels the printer pays for a value printed at [depth]:
    [depth] for a scalar, twice [depth] for the two brackets of a container
    and what its elements need one level deeper. *)
Fixpoint indentation {A : Type} (d : nat) : ND A d -> nat -> nat :=
  match d with
  | O => fun _ depth => depth
  | S d' => fun holder depth =>
      2 * depth + sum_list ((fun sub => indentation d' sub (depth + 1)) <$> holder)
  end.


(** ** The loops compute the functional reading *)

Section Refinement.
Context {A : Type}.
Variable compare : A -> A -> bool.

Lemma bubble_pass_length k : forall l : list A,
  length (bubble_pass compare k l).1 = length l.
Proof.
  induction k as [|k IH]; intros l; [done|].
  destruct l as [|a [|b t]]; simpl; try done.
  destruct (compare a b); simpl; rewrite IH; done.
Qed.

Lemma inner_loop_bubble_pass n i k :
  forall fuel j (s : pass_state A) pre rest,
    n - i - 1 - j = k ->
    ps_holder s = pre ++ rest ->
    length pre = ps_it s ->
    k < length rest ->
    k < fuel ->
    inner_loop compare fuel n i j s =
      Finished (mkPS (pre ++ (bubble_pass compare k rest).1)
                     (ps_it s + k)
                     (ps_swapped s || negb ((bubble_pass compare k rest).2 =? 0))
                     (ps_compared s + k)
                     (ps_exchanged s + (bubble_pass compare k rest).2)).
Proof.
  induction k as [|k IH]; intros fuel j s pre rest Hk Hh Hit Hlen Hfuel.
  - destruct fuel as [|fuel]; [lia|]. simpl.
    destruct (Nat.ltb_spec j (n - i - 1)); [lia|].
    destruct s as [h it sw c e]; simpl in *; subst.
    rewrite !Nat.add_0_r, orb_false_r. by destruct rest.
  - destruct fuel as [|fuel]; [lia|]. simpl inner_loop.
    destruct (Nat.ltb_spec j (n - i - 1)); [|lia].
    destruct rest as [|a [|b t]]; simpl in Hlen; try lia.
    destruct s as [h it sw c e]; simpl in *; subst h it.
    unfold inner_body; simpl.
    rewrite list_lookup_middle by done.
    replace (pre ++ a :: b :: t) with ((pre ++ [a]) ++ b :: t)
      by (by rewrite <- app_assoc).
    rewrite list_lookup_middle by (rewrite length_app; simpl; lia).
    rewrite <- app_assoc; simpl.
    destruct (compare a b) eqn:Hc; simpl.
    + rewrite (insert_app_r_alt pre _ (length pre)) by lia.
      rewrite Nat.sub_diag; simpl.
      rewrite (insert_app_r_alt pre _ (S (length pre))) by lia.
      replace (S (length pre) - length pre) with 1 by lia; simpl.
      rewrite (IH fuel (S j) _ (pre ++ [b]) (a :: t)); simpl;
        try lia; try (rewrite length_app; simpl; lia);
        try (by rewrite <- app_assoc).
      f_equal. f_equal; try lia. by rewrite <- app_assoc.
    + rewrite (IH fuel (S j) _ (pre ++ [a]) (b :: t)); simpl;
        try lia; try (rewrite length_app; simpl; lia);
        try (by rewrite <- app_assoc).
      f_equal. f_equal; try lia. by rewrite <- app_assoc.
Qed.

Lemma outer_loop_sort_passes budget n r :
  forall fuel i (st : sort_state A),
    n - 1 - i = r ->
    length (holder st) = n ->
    n <= budget ->
    r < fuel ->
    2 <= n ->
    outer_loop compare budget fuel n i st =
      Finished (mkSort (sort_passes compare r n i (holder st)).1
                       (log st ++ (sort_passes compare r n i (holder st)).2)).
Proof.
  induction r as [|r IH]; intros fuel i st Hr Hlen Hbud Hfuel Hn.
  - destruct fuel as [|fuel]; [lia|]. simpl.
    destruct (Nat.ltb_spec i (n - 1)); [lia|].
    destruct st; simpl. by rewrite app_nil_r.
  - destruct fuel as [|fuel]; [lia|]. simpl outer_loop.
    destruct (Nat.ltb_spec i (n - 1)); [|lia].
    rewrite (inner_loop_bubble_pass n i (n - i - 1) budget 0 _ [] (holder st));
      simpl; try lia; try done.
    destruct (bubble_pass compare (n - i - 1) (holder st)) as [h' e] eqn:Hp.
    simpl. destruct (Nat.eqb_spec e 0); simpl; [done|].
    rewrite (IH fuel (S i)); simpl; try lia.
    + by rewrite <- app_assoc.
    + change h' with (h', e).1. rewrite <- Hp. by rewrite bubble_pass_length.
Qed.

(** The budget of [bubbleSort] is enough, and any larger budget gives the
    same final state. *)
Lemma bubbleSort_fuel_enough (fuel : nat) (l : list A) :
  length l <= fuel ->
  bubbleSort_fuel compare fuel l =
    Finished (mkSort (sort_result compare l).1 (sort_result compare l).2).
Proof.
  intros Hfuel. unfold bubbleSort_fuel, sort_result.
  destruct (Nat.ltb_spec (length l) 2); [done|].
  by rewrite (outer_loop_sort_passes fuel (length l) (length l - 1)); simpl; try lia.
Qed.

Lemma bubbleSort_sort_result (l : list A) :
  bubbleSort compare l =
    Finished (mkSort (sort_result compare l).1 (sort_result compare l).2).
Proof. by apply bubbleSort_fuel_enough. Qed.

(** A run that did not exhaust its budget is not changed by a larger one. *)
Lemma inner_loop_stable n i : forall fuel fuel' j (s : pass_state A),
  fuel <= fuel' ->
  inner_loop compare fuel n i j s <> OutOfFuel ->
  inner_loop compare fuel' n i j s = inner_loop compare fuel n i j s.
Proof.
  induction fuel as [|fuel IH]; intros fuel' j s Hle Hrun; [done|].
  destruct fuel' as [|fuel']; [lia|]. simpl in *.
  destruct (j <? n - i - 1); [|done].
  destruct (inner_body compare s) as [s'| |]; simpl in *; [|done..].
  apply IH; [lia|done].
Qed.

Lemma outer_loop_stable n : forall budget budget' fuel fuel' i (st : sort_state A),
  budget <= budget' -> fuel <= fuel' ->
  outer_loop compare budget fuel n i st <> OutOfFuel ->
  outer_loop compare budget' fuel' n i st = outer_loop compare budget fuel n i st.
Proof.
  intros budget budget'.
  induction fuel as [|fuel IH]; intros fuel' i st Hb Hle Hrun; [done|].
  destruct fuel' as [|fuel']; [lia|]. simpl in *.
  destruct (i <? n - 1); [|done].
  rewrite (inner_loop_stable n i budget budget') by
    (try done; intros Hin; by rewrite Hin in Hrun).
  destruct (inner_loop compare budget n i 0 _) as [ps| |]; simpl in *; [|done..].
  destruct (ps_swapped ps); simpl in *; [|done].
  apply IH; [done|lia|done].
Qed.

(** Whatever the budget, the call either exhausts it or returns the final
    state of [bubbleSort]; in particular it never faults. *)
Lemma bubbleSort_fuel_stable (fuel : nat) (l : list A) :
  bubbleSort_fuel compare fuel l <> OutOfFuel ->
  bubbleSort_fuel compare fuel l = bubbleSort compare l.
Proof.
  intros Hrun. rewrite bubbleSort_sort_result.
  rewrite <- (bubbleSort_fuel_enough (fuel `max` length l)) by lia.
  unfold bubbleSort_fuel in *. destruct (length l <? 2); [done|].
  symmetry. apply outer_loop_stable; [lia..|done].
Qed.

End Refinement.

(** ** Properties of one pass *)

Section PassProperties.
Context {A : Type}.
Variable compare : A -> A -> bool.

Lemma ordered_tail (x : A) (t : list A) :
  ordered compare (x :: t) -> ordered compare t.
Proof. destruct t; simpl; tauto. Qed.

Lemma ordered_no_adjacent_exchange (l : list A) :
  ordered compare l <-> no_adjacent_exchange compare l.
Proof.
  unfold no_adjacent_exchange. induction l as [|x t IH]; [done|].
  destruct t as [|y t].
  - split; [|done]. intros _ [|i] ? ? ? Hy; simplify_eq/=.
  - destruct IH as [IH1 IH2]. split.
    + intros [Hxy Ht]. specialize (IH1 Ht).
      intros [|i] a b Ha Hb; [by simplify_eq/=|].
      by apply (IH1 i).
    + intros H. split; [by apply (H 0)|].
      apply IH2. intros i a b Ha Hb. by apply (H (S i)).
Qed.

Lemma ordered_app (p s : list A) :
  ordered compare p -> ordered compare s ->
  (forall x y, x ∈ p -> y ∈ s -> compare x y = false) ->
  ordered compare (p ++ s).
Proof.
  induction p as [|x p IH]; intros Hp Hs Hps; [done|].
  destruct p as [|x' p].
  - destruct s as [|y s]; [done|]. simpl. split; [|done].
    apply Hps; constructor.
  - simpl in Hp. destruct Hp as [Hxx' Hp]. split; [done|].
    apply IH; [done..|]. intros a b Ha Hb. apply Hps; [|done].
    by constructor.
Qed.

Lemma bubble_pass_perm k : forall l : list A,
  (bubble_pass compare k l).1 ≡ₚ l.
Proof.
  induction k as [|k IH]; intros l; [done|].
  destruct l as [|a [|b t]]; simpl; try done.
  destruct (compare a b); simpl; rewrite IH; [apply perm_swap|done].
Qed.

Lemma bubble_pass_exchanges_le k : forall l : list A,
  (bubble_pass compare k l).2 <= k.
Proof.
  induction k as [|k IH]; intros l; [done|].
  destruct l as [|a [|b t]]; simpl; try lia.
  destruct (compare a b); simpl.
  - specialize (IH (a :: t)). lia.
  - specialize (IH (b :: t)). lia.
Qed.

(** A pass without exchanges changed nothing and saw only pairs in order. *)
Lemma bubble_pass_no_exchange k : forall l : list A,
  (bubble_pass compare k l).2 = 0 ->
  (bubble_pass compare k l).1 = l /\ ordered compare (take (S k) l).
Proof.
  induction k as [|k IH]; intros l He.
  - split; [done|]. by destruct l as [|a [|b t]].
  - destruct l as [|a [|b t]]; simpl in *; try done.
    destruct (compare a b) eqn:Hc; simpl in *; [done|].
    destruct (IH _ He) as [-> Ho]. done.
Qed.

(** On a sequence in order a pass exchanges nothing. *)
Lemma bubble_pass_ordered k : forall l : list A,
  ordered compare l -> bubble_pass compare k l = (l, 0).
Proof.
  induction k as [|k IH]; intros l Ho; [by destruct l|].
  destruct l as [|a [|b t]]; simpl; try done.
  destruct Ho as [-> Ho]. by rewrite (IH _ Ho).
Qed.

Hypothesis Hswo : StrictWeakOrdering compare.

Lemma swo_asym (x y : A) : compare x y = true -> compare y x = false.
Proof.
  intros Hxy. destruct (compare y x) eqn:Hyx; [|done].
  pose proof (swo_trans _ Hswo _ _ _ Hxy Hyx) as Hxx.
  by rewrite (swo_irrefl _ Hswo) in Hxx.
Qed.

(** Negative transitivity, the form in which the sort uses the ordering. *)
Lemma swo_neg_trans (x y z : A) :
  compare x y = false -> compare y z = false -> compare x z = false.
Proof.
  intros Hxy Hyz. destruct (compare x z) eqn:Hxz; [|done].
  destruct (compare y x) eqn:Hyx.
  { by rewrite (swo_trans _ Hswo _ _ _ Hyx Hxz) in Hyz. }
  destruct (compare z y) eqn:Hzy.
  { by rewrite (swo_trans _ Hswo _ _ _ Hxz Hzy) in Hxy. }
  destruct (swo_equiv_trans _ Hswo _ _ _ Hxy Hyx Hyz Hzy) as [Hxz' _].
  congruence.
Qed.

(** A pass of [k] comparisons leaves, at position [k], an element that no
    element of the window it went through must be exchanged with, and does
    not touch what lies behind the window. *)
Lemma bubble_pass_max k : forall (c : A) (t : list A),
  k <= length t ->
  exists q m,
    (bubble_pass compare k (c :: t)).1 = q ++ m :: drop k t /\
    length q = k /\
    q ++ [m] ≡ₚ c :: take k t /\
    forall x, x ∈ c :: take k t -> compare x m = false.
Proof.
  induction k as [|k IH]; intros c t Hlen.
  - exists [], c. rewrite drop_0, take_0. repeat split; try done.
    intros x Hx. apply list_elem_of_singleton in Hx as ->.
    apply (swo_irrefl _ Hswo).
  - destruct t as [|b t]; simpl in Hlen; [lia|]. simpl.
    destruct (compare c b) eqn:Hcb; simpl.
    + destruct (IH c t ltac:(lia)) as (q & m & Heq & Hq & Hperm & Hmax).
      exists (b :: q), m. rewrite Heq. repeat split; simpl; try done.
      * by rewrite Hq.
      * rewrite Hperm. apply perm_swap.
      * intros x Hx. apply elem_of_cons in Hx as [->|Hx].
        { apply Hmax. constructor. }
        apply elem_of_cons in Hx as [->|Hx].
        { destruct (compare b m) eqn:Hbm; [|done].
          pose proof (swo_trans _ Hswo _ _ _ Hcb Hbm) as Hcm.
          rewrite Hmax in Hcm; [done|constructor]. }
        apply Hmax. by constructor.
    + destruct (IH b t ltac:(lia)) as (q & m & Heq & Hq & Hperm & Hmax).
      exists (c :: q), m. rewrite Heq. repeat split; simpl; try done.
      * by rewrite Hq.
      * by rewrite Hperm.
      * intros x Hx. apply elem_of_cons in Hx as [->|Hx]; [|by apply Hmax].
        apply swo_neg_trans with b; [done|]. apply Hmax. constructor.
Qed.

End PassProperties.

(** ** Properties of the sequence of passes *)

Section SortProperties.
Context {A : Type}.
Variable compare : A -> A -> bool.

Lemma sort_passes_perm r n : forall i (l : list A),
  (sort_passes compare r n i l).1 ≡ₚ l.
Proof.
  induction r as [|r IH]; intros i l; [done|]. simpl.
  destruct (_ =? 0); simpl.
  - apply bubble_pass_perm.
  - rewrite IH. apply bubble_pass_perm.
Qed.

Lemma sort_passes_log_length r n : forall i (l : list A),
  length (sort_passes compare r n i l).2 <= r.
Proof.
  induction r as [|r IH]; intros i l; [done|]. simpl.
  destruct (_ =? 0); simpl; [lia|].
  specialize (IH (S i) (bubble_pass compare (n - i - 1) l).1). lia.
Qed.

(** Pass [i + j] makes [n - (i + j) - 1] comparisons. *)
Lemma sort_passes_log_comparisons r n : forall i (l : list A) j ps,
  (sort_passes compare r n i l).2 !! j = Some ps ->
  comparisons ps = n - (i + j) - 1.
Proof.
  induction r as [|r IH]; intros i l j ps; [done|]. simpl.
  destruct (_ =? 0); simpl.
  - destruct j as [|j]; simpl; [|done].
    intros [= <-]. simpl. f_equal; lia.
  - destruct j as [|j]; simpl.
    + intros [= <-]. simpl. f_equal; lia.
    + intros Hj. rewrite (IH _ _ _ _ Hj). lia.
Qed.

(** A pass without exchanges is the last one. *)
Lemma sort_passes_log_last r n : forall i (l : list A) j ps,
  (sort_passes compare r n i l).2 !! j = Some ps ->
  exchanges ps = 0 ->
  S j = length (sort_passes compare r n i l).2.
Proof.
  induction r as [|r IH]; intros i l j ps; [done|]. simpl.
  destruct (Nat.eqb_spec (bubble_pass compare (n - i - 1) l).2 0) as [He|He];
    simpl.
  - destruct j as [|j]; simpl; done.
  - destruct j as [|j]; simpl.
    + intros [= <-]. simpl. done.
    + intros Hj Hps. f_equal. by eapply IH.
Qed.

Lemma sort_passes_exchanges_le r n : forall i (l : list A) j ps,
  (sort_passes compare r n i l).2 !! j = Some ps ->
  exchanges ps <= comparisons ps.
Proof.
  induction r as [|r IH]; intros i l j ps; [done|]. simpl.
  destruct (_ =? 0); simpl.
  - destruct j as [|j]; simpl; [|done].
    intros [= <-]. simpl. apply bubble_pass_exchanges_le.
  - destruct j as [|j]; simpl.
    + intros [= <-]. simpl. apply bubble_pass_exchanges_le.
    + apply IH.
Qed.

(** With [r] passes left, each shorter by one comparison than the one
    before, at most [r * (r + 1) / 2] comparisons are made. *)
Lemma sort_passes_comparisons r n : forall i (l : list A),
  n - i - 1 = r ->
  2 * sum_list (comparisons <$> (sort_passes compare r n i l).2) <= r * (r + 1).
Proof.
  induction r as [|r IH]; intros i l Hr; [simpl; lia|].
  cbn [sort_passes]. rewrite Hr.
  destruct (_ =? 0);
    cbn [snd fmap list_fmap sum_list sum_list_with comparisons];
    change (id (S r)) with (S r).
  - nia.
  - specialize (IH (S i) (bubble_pass compare (S r) l).1 ltac:(lia)).
    nia.
Qed.

(** On a sequence in order the first pass is the only one. *)
Lemma sort_passes_ordered_input r n i (l : list A) :
  ordered compare l ->
  sort_passes compare (S r) n i l = (l, [mkPass (n - i - 1) 0]).
Proof. intros Ho. simpl. by rewrite (bubble_pass_ordered _ _ _ Ho). Qed.

(** The invariant of the outer loop: behind the window of the next pass
    the sequence is in order, and nothing in the window must be exchanged
    with anything behind it. *)
Lemma sort_passes_ordered (Hswo : StrictWeakOrdering compare) r n :
  forall i (p s : list A),
    length p = S r ->
    n - i - 1 = r ->
    ordered compare s ->
    (forall x y, x ∈ p -> y ∈ s -> compare x y = false) ->
    ordered compare (sort_passes compare r n i (p ++ s)).1.
Proof.
  induction r as [|r IH]; intros i p s Hp Hr Hs Hps.
  - simpl. destruct p as [|x [|? ?]]; simplify_eq/=.
    destruct s as [|y s]; [done|]. split; [|done].
    apply Hps; constructor.
  - cbn [sort_passes]. rewrite Hr.
    destruct (Nat.eqb_spec (bubble_pass compare (S r) (p ++ s)).2 0) as [He|He];
      cbn [fst].
    + destruct (bubble_pass_no_exchange _ _ _ He) as [Heq Ho].
      rewrite Heq. apply ordered_app; [|done..].
      rewrite take_app_length' in Ho; done.
    + destruct p as [|c p]; [done|]. simpl in Hp.
      destruct (bubble_pass_max compare Hswo (S r) c (p ++ s))
        as (q & m & Heq & Hq & Hperm & Hmax).
      { rewrite length_app. lia. }
      rewrite take_app_length' in Hperm, Hmax by lia.
      rewrite drop_app_length' in Heq by lia.
      change ((c :: p) ++ s) with (c :: p ++ s). rewrite Heq.
      assert (Hm : m ∈ c :: p).
      { rewrite <- Hperm. apply elem_of_app. right. constructor. }
      assert (Hqp : forall x, x ∈ q -> x ∈ c :: p).
      { intros x Hx. rewrite <- Hperm. apply elem_of_app. by left. }
      apply IH; [done|lia| |].
      * destruct s as [|y s]; [done|]. split; [|done].
        apply Hps; [done|constructor].
      * intros x y Hx Hy. apply elem_of_cons in Hy as [->|Hy].
        { apply Hmax. by apply Hqp. }
        apply Hps; [by apply Hqp|done].
Qed.

Lemma sort_result_ordered (Hswo : StrictWeakOrdering compare) (l : list A) :
  ordered compare (sort_result compare l).1.
Proof.
  unfold sort_result. destruct (Nat.ltb_spec (length l) 2) as [Hn|Hn].
  - by destruct l as [|x [|y t]]; simpl in *; try lia.
  - rewrite <- (app_nil_r l) at 3.
    apply sort_passes_ordered; [done|lia|lia|done|].
    intros x y _ Hy. by apply elem_of_nil in Hy.
Qed.

(** With any comparator the call returns a permutation of its input. *)
Lemma bubbleSort_permutation_aux (l : list A) :
  exists st, bubbleSort compare l = Finished st /\ holder st ≡ₚ l.
Proof.
  eexists. split; [apply bubbleSort_sort_result|]. simpl.
  unfold sort_result. destruct (_ <? 2); [done|]. apply sort_passes_perm.
Qed.

(** Under a strict weak ordering the call returns a sequence in order. *)
Lemma bubbleSort_returns_ordered (Hswo : StrictWeakOrdering compare) (l : list A) :
  exists st, bubbleSort compare l = Finished st /\
             no_adjacent_exchange compare (holder st).
Proof.
  eexists. split; [apply bubbleSort_sort_result|].
  apply ordered_no_adjacent_exchange. by apply sort_result_ordered.
Qed.

End SortProperties.

(** ** Comparators as orderings *)

Section ComparatorProperties.
Import Comparators.
Local Open Scope Z_scope.

Lemma greater_swo : StrictWeakOrdering greater.
Proof. unfold greater. split; intros; lia. Qed.

(** The loop of [sumDigits] returns: a budget above the number of binary
    digits of [n] is never exhausted. *)
Lemma sumDigits_loop_enough (f : nat) : forall n sum,
  n < 2 ^ Z.of_nat f ->
  exists v, sumDigits_loop (S f) n sum = Some v.
Proof.
  induction f as [|f IH]; intros n sum Hn.
  - simpl in *. destruct (Z.gtb_spec n 0); [lia|]. by eexists.
  - cbn [sumDigits_loop]. destruct (Z.gtb_spec n 0); [|by eexists].
    apply IH. rewrite Nat2Z.inj_succ, Z.pow_succ_r in Hn by lia.
    assert (Z.quot n 10 <= Z.quot n 2).
    { rewrite !Z.quot_div_nonneg by lia.
      apply Z.div_le_compat_l; lia. }
    assert (Z.quot n 2 < 2 ^ Z.of_nat f).
    { apply Z.quot_lt_upper_bound; lia. }
    lia.
Qed.

Lemma sumDigits_returns (n : Z) :
  sumDigits_loop (sumDigits_budget n) n 0 = Some (sumDigits n).
Proof.
  unfold sumDigits, sumDigits_budget.
  destruct (sumDigits_loop_enough (S (Z.to_nat (Z.log2 n))) n 0) as [v Hv].
  - destruct (Z.le_gt_cases n 0) as [Hn|Hn].
    + pose proof (Z.pow_pos_nonneg 2 (Z.of_nat (S (Z.to_nat (Z.log2 n))))).
      lia.
    + pose proof (Z.log2_spec n Hn) as [_ Hlt].
      pose proof (Z.log2_nonneg n).
      rewrite Nat2Z.inj_succ, Z2Nat.id by lia. done.
  - by rewrite Hv.
Qed.

Lemma sumDigits_loop_nonneg (fuel : nat) : forall n sum v,
  0 <= sum -> sumDigits_loop fuel n sum = Some v -> 0 <= v.
Proof.
  induction fuel as [|fuel IH]; intros n sum v Hsum; [done|]. simpl.
  destruct (Z.gtb_spec n 0); [|by intros [= <-]].
  apply IH. pose proof (Z.rem_nonneg n 10). lia.
Qed.

(** No digit sum is below zero. *)
Lemma sumDigits_nonneg (n : Z) : 0 <= sumDigits n.
Proof.
  apply (sumDigits_loop_nonneg (sumDigits_budget n) n 0); [lia|].
  apply sumDigits_returns.
Qed.

(** For [n <= 0] the loop is not entered. *)
Lemma sumDigits_nonpositive (n : Z) : n <= 0 -> sumDigits n = 0.
Proof.
  intros Hn. unfold sumDigits, sumDigits_budget. cbn [sumDigits_loop].
  by destruct (Z.gtb_spec n 0); [lia|].
Qed.

Lemma OddFirst_swo : StrictWeakOrdering OddFirst.
Proof.
  unfold OddFirst. split.
  - intros x. destruct (Z.rem x 2 =? 0); simpl; lia.
  - intros x y z.
    destruct (Z.rem x 2 =? 0), (Z.rem y 2 =? 0), (Z.rem z 2 =? 0);
      simpl; lia.
  - intros x y z.
    destruct (Z.rem x 2 =? 0), (Z.rem y 2 =? 0), (Z.rem z 2 =? 0);
      simpl; lia.
Qed.

Lemma SumOfDigits_swo : StrictWeakOrdering SumOfDigits.
Proof. unfold SumOfDigits. split; intros; lia. Qed.

End ComparatorProperties.

(** ** The specification of [bubbleSort] *)

Section BubbleSortSpec.
Context {A : Type}.
Variable compare : A -> A -> bool.

(** C1 (order establishment).  For every finite sequence and every
    comparator that is a strict weak ordering, [bubbleSort] returns and
    [compare x y] is false for every adjacent pair [(x, y)] of the
    resulting sequence. *)
Theorem bubbleSort_order_establishment (l : list A) :
  StrictWeakOrdering compare ->
  exists st, bubbleSort compare l = Finished st /\
             no_adjacent_exchange compare (holder st).
Proof.
  intros Hswo. by apply bubbleSort_returns_ordered.
Qed.

(** C2 (permutation invariance).  For every finite sequence and every
    comparator, whether an ordering or not, [bubbleSort] returns and the
    resulting sequence is a permutation of the initial one. *)
Theorem bubbleSort_permutation (l : list A) :
  exists st, bubbleSort compare l = Finished st /\ holder st ≡ₚ l.
Proof.
  apply bubbleSort_permutation_aux.
Qed.

(** C6 (idempotence and early exit).  On a sequence on which the
    comparator is false on every adjacent pair, [bubbleSort] makes no
    exchange, leaves the sequence as it is and runs no pass beyond the
    first (exactly one pass, of [n - 1] comparisons, when there are at
    least two elements, for which alone the loop is entered).  And on any
    input, a pass that made no exchange is the last pass run. *)
Theorem bubbleSort_sorted_input (l : list A) :
  no_adjacent_exchange compare l ->
  (exists st, bubbleSort compare l = Finished st /\
              holder st = l /\
              total_exchanges st = 0 /\
              passes_run st <= 1 /\
              (2 <= length l ->
               passes_run st = 1 /\ total_comparisons st = length l - 1)) /\
  (forall (l' : list A) st' j ps,
      bubbleSort compare l' = Finished st' ->
      log st' !! j = Some ps -> exchanges ps = 0 ->
      S j = passes_run st').
Proof.
  intros Ho. apply ordered_no_adjacent_exchange in Ho. split.
  - eexists. split; [apply bubbleSort_sort_result|].
    unfold total_exchanges, total_comparisons, passes_run, sort_result.
    cbn [holder log].
    destruct (Nat.ltb_spec (length l) 2) as [Hn|Hn].
    { simpl. repeat split; try lia. }
    destruct (length l - 1) as [|r] eqn:Hr; [lia|].
    rewrite sort_passes_ordered_input by done. simpl.
    repeat split; try lia.
  - intros l' st' j ps Hrun Hj He.
    rewrite bubbleSort_sort_result in Hrun. injection Hrun as <-.
    unfold passes_run. cbn [log] in *. unfold sort_result in *.
    destruct (_ <? 2); [done|]. by eapply sort_passes_log_last.
Qed.

(** C9 (degenerate inputs).  On a sequence of length 0 or 1 [bubbleSort]
    returns with the sequence unchanged, having run no pass and called the
    comparator zero times; and on every finite sequence, with every
    comparator, [bubbleSort] returns, and under no step budget is an
    iterator dereferenced out of range. *)
Theorem bubbleSort_degenerate_noop (l : list A) :
  length l <= 1 ->
  (exists st, bubbleSort compare l = Finished st /\
              holder st = l /\
              passes_run st = 0 /\
              total_comparisons st = 0 /\
              total_exchanges st = 0) /\
  (forall l' : list A, exists st', bubbleSort compare l' = Finished st') /\
  (forall (l' : list A) fuel, bubbleSort_fuel compare fuel l' <> Fault).
Proof.
  intros Hlen. split; [|split].
  - exists (mkSort l []). split; [|done].
    unfold bubbleSort, bubbleSort_fuel.
    by destruct (Nat.ltb_spec (length l) 2); [|lia].
  - intros l'. eexists. apply bubbleSort_sort_result.
  - intros l' fuel Hfault.
    pose proof (bubbleSort_fuel_stable compare fuel l') as Hst.
    rewrite Hfault, bubbleSort_sort_result in Hst. by specialize (Hst ltac:(done)).
Qed.

(** C10 (termination and cost).  For every finite sequence of length [n]
    and every comparator, strict weak ordering or not, [bubbleSort]
    returns under any step budget of at least [n], and a smaller budget
    is either exhausted or leads to the same final state; it runs at most
    [n - 1] passes, pass [i] makes exactly [n - i - 1] comparisons, and the
    comparator is called at most [n * (n - 1) / 2] times in all. *)
Theorem bubbleSort_terminates_bounded (l : list A) :
  exists st,
    bubbleSort compare l = Finished st /\
    (forall fuel, length l <= fuel ->
                  bubbleSort_fuel compare fuel l = Finished st) /\
    (forall fuel, bubbleSort_fuel compare fuel l = Finished st \/
                  bubbleSort_fuel compare fuel l = OutOfFuel) /\
    passes_run st <= length l - 1 /\
    (forall i ps, log st !! i = Some ps ->
                  comparisons ps = length l - i - 1) /\
    total_comparisons st <= length l * (length l - 1) / 2.
Proof.
  eexists. split; [apply bubbleSort_sort_result|].
  split; [intros fuel Hfuel; by apply bubbleSort_fuel_enough|].
  split.
  { intros fuel. rewrite <- bubbleSort_sort_result.
    pose proof (bubbleSort_fuel_stable compare fuel l) as Hst.
    destruct (bubbleSort_fuel compare fuel l) as [s| |] eqn:Hrun;
      [left|left|right]; (done || by apply Hst). }
  unfold passes_run, total_comparisons, sort_result. cbn [log].
  destruct (Nat.ltb_spec (length l) 2) as [Hn|Hn]; cbn [snd].
  { repeat split; simpl; try lia. done. }
  repeat split.
  - apply sort_passes_log_length.
  - intros i ps Hi. by rewrite (sort_passes_log_comparisons _ _ _ _ _ _ _ Hi).
  - apply Nat.div_le_lower_bound; [lia|].
    pose proof (sort_passes_comparisons compare (length l - 1) (length l) 0 l
                  ltac:(lia)) as Hsum.
    replace (length l - 1 + 1) with (length l) in Hsum by lia. lia.
Qed.

End BubbleSortSpec.

(** ** The comparators under [bubbleSort] *)

Section ComparatorSpec.
Import Comparators.
Local Open Scope Z_scope.

(** C8 (default comparator).  With the default comparator
    [std::greater], [bubbleSort] and [recursiveSort] on a flat sequence
    return a sequence in ascending order: [x <= y] for every adjacent pair
    [(x, y)] of the result.  ([recursiveSort] has the default only at a
    flat container: for a nested one the default is [std::greater] of the
    sub-container type, which does not apply to the scalars.) *)
Theorem default_comparator_ascending (l : list Z) :
  exists st,
    bubbleSort greater l = Finished st /\
    recursiveSort greater 0 l = Finished (holder st) /\
    forall (i : nat) (x y : Z),
      holder st !! i = Some x -> holder st !! S i = Some y -> x <= y.
Proof.
  destruct (bubbleSort_returns_ordered greater greater_swo l)
    as (st & Hrun & Hord).
  exists st. split; [done|]. split.
  - simpl. by rewrite Hrun.
  - intros i x y Hx Hy. specialize (Hord i x y Hx Hy).
    unfold greater in Hord. lia.
Qed.

(** C3 (OddFirst), as the code behaves.  Sorting [5,2,9,1,5,6] with
    [OddFirst] returns [9,5,5,1,6,2], not [1,5,5,9,2,6]; and in every
    result an even element is never directly followed by an odd one,
    while two neighbours of the same parity are in descending order. *)
Theorem OddFirst_descending_within_parity :
  bubbleSort OddFirst [5; 2; 9; 1; 5; 6] =
    Finished (mkSort [9; 5; 5; 1; 6; 2] [mkPass 5 4; mkPass 4 2; mkPass 3 0]) /\
  recursiveSort OddFirst 0 [5; 2; 9; 1; 5; 6] = Finished [9; 5; 5; 1; 6; 2] /\
  forall l : list Z, exists st,
    bubbleSort OddFirst l = Finished st /\
    forall (i : nat) (x y : Z),
      holder st !! i = Some x -> holder st !! S i = Some y ->
      (Z.rem x 2 = 0 -> Z.rem y 2 = 0) /\
      ((Z.rem x 2 = 0 <-> Z.rem y 2 = 0) -> y <= x).
Proof.
  split; [by vm_compute|]. split; [by vm_compute|].
  intros l.
  destruct (bubbleSort_returns_ordered OddFirst OddFirst_swo l)
    as (st & Hrun & Hord).
  exists st. split; [done|]. intros i x y Hx Hy.
  specialize (Hord i x y Hx Hy). unfold OddFirst in Hord.
  destruct (Z.eqb_spec (Z.rem x 2) 0), (Z.eqb_spec (Z.rem y 2) 0);
    simpl in Hord; split; try done; try lia; tauto.
Qed.

(** C4 (SumOfDigits), as the code behaves.  Sorting [234,56,123] with
    [SumOfDigits] returns [56,234,123], not [123,234,56]: in every result
    the digit sums of neighbours are in descending order.  And
    [sumDigits] is not insensitive to the sign: it is [0] on every
    [n <= 0], so [sumDigits (-12) = 0] while [sumDigits 12 = 3]; no digit
    sum is below zero. *)
Theorem SumOfDigits_descending_sign_sensitive :
  bubbleSort SumOfDigits [234; 56; 123] =
    Finished (mkSort [56; 234; 123] [mkPass 2 1; mkPass 1 0]) /\
  recursiveSort SumOfDigits 0 [234; 56; 123] = Finished [56; 234; 123] /\
  (sumDigits 234 = 9 /\ sumDigits 56 = 11 /\ sumDigits 123 = 6) /\
  (sumDigits 12 = 3 /\ sumDigits (-12) = 0) /\
  (forall n, n <= 0 -> sumDigits n = 0) /\
  (forall n, 0 <= sumDigits n) /\
  forall l : list Z, exists st,
    bubbleSort SumOfDigits l = Finished st /\
    forall (i : nat) (x y : Z),
      holder st !! i = Some x -> holder st !! S i = Some y ->
      sumDigits y <= sumDigits x.
Proof.
  split; [by vm_compute|]. split; [by vm_compute|].
  split; [by vm_compute|]. split; [by vm_compute|].
  split; [apply sumDigits_nonpositive|].
  split; [apply sumDigits_nonneg|].
  intros l.
  destruct (bubbleSort_returns_ordered SumOfDigits SumOfDigits_swo l)
    as (st & Hrun & Hord).
  exists st. split; [done|]. intros i x y Hx Hy.
  specialize (Hord i x y Hx Hy). unfold SumOfDigits in Hord. lia.
Qed.

End ComparatorSpec.

(** ** The specification of [recursiveSort] *)

Section RecursiveSortSpec.
Context {A : Type}.
Variable compare : A -> A -> bool.

Lemma for_each_Forall2 {X : Type} (f : X -> outcome X) (c : list X) :
  forall c', for_each f c = Finished c' <->
             Forall2 (fun sub sub' => f sub = Finished sub') c c'.
Proof.
  induction c as [|sub c IH]; intros c'; simpl.
  - split; [intros [= <-]; constructor|]. by intros ->%Forall2_nil_inv_l.
  - destruct (f sub) as [sub'| |] eqn:Hsub; simpl.
    + destruct (for_each f c) as [rest'| |] eqn:Hrest; simpl.
      * split.
        { intros [= <-]. constructor; [done|]. by apply IH. }
        intros (y & k & Hy & Hk & ->)%Forall2_cons_inv_l.
        apply IH in Hk. congruence.
      * split; [done|].
        intros (y & k & Hy & Hk & ->)%Forall2_cons_inv_l.
        apply IH in Hk. congruence.
      * split; [done|].
        intros (y & k & Hy & Hk & ->)%Forall2_cons_inv_l.
        apply IH in Hk. congruence.
    + split; [done|].
      intros (y & k & Hy & Hk & ->)%Forall2_cons_inv_l. congruence.
    + split; [done|].
      intros (y & k & Hy & Hk & ->)%Forall2_cons_inv_l. congruence.
Qed.

(** What [recursiveSort] does to a container of depth [S d]: it returns a
    container of the same grouping whose flat sequences are, one by one
    and in the same order, what [bubbleSort] makes of the initial ones. *)
Lemma recursiveSort_spec d : forall c : ND A (S d),
  exists c' : ND A (S d),
    recursiveSort compare d c = Finished c' /\
    skeleton d c' = skeleton d c /\
    Forall2 (fun xs xs' => exists st, bubbleSort compare xs = Finished st /\
                                      holder st = xs')
            (leaves d c) (leaves d c').
Proof.
  induction d as [|d IH]; intros c.
  - destruct (bubbleSort_permutation_aux compare c) as (st & Hrun & Hperm).
    exists (holder st). simpl. rewrite Hrun. simpl.
    split; [done|]. split; [by rewrite Hperm|].
    constructor; [|constructor]. by exists st.
  - induction c as [|sub c IHc].
    + exists []. repeat split. constructor.
    + destruct (IH sub) as (sub' & Hsub & Hsk & Hlv).
      destruct IHc as (c' & Hc & Hskc & Hlvc).
      exists (sub' :: c'). cbn [recursiveSort for_each] in *.
      rewrite Hsub. cbn [mbind outcome_bind]. rewrite Hc.
      split; [done|]. split.
      * cbn [skeleton fmap list_fmap] in *. by rewrite Hsk, Hskc.
      * cbn [leaves fmap list_fmap concat] in *. by apply Forall2_app.
Qed.

(** C5 (recursive uniformity).  For every nested container,
    [recursiveSort] returns a container with the same grouping, whose
    flat sequences of scalars are, in the same left-to-right order, the
    initial ones each sorted by [bubbleSort] with the given comparator;
    and at every intermediate level the sub-containers stay where they
    are: the [i]-th sub-container of the result is what [recursiveSort]
    makes of the [i]-th sub-container of the input. *)
Theorem recursiveSort_leaves_only (d : nat) (c : ND A (S d)) :
  (exists c' : ND A (S d),
      recursiveSort compare d c = Finished c' /\
      skeleton d c' = skeleton d c /\
      Forall2 (fun xs xs' => exists st, bubbleSort compare xs = Finished st /\
                                        holder st = xs' /\ xs' ≡ₚ xs)
              (leaves d c) (leaves d c')) /\
  (forall d' (n n' : ND A (S (S d'))),
      recursiveSort compare (S d') n = Finished n' ->
      length n' = length n /\
      forall (i : nat) (sub : ND A (S d')),
        n !! i = Some sub ->
        exists sub', n' !! i = Some sub' /\
                     recursiveSort compare d' sub = Finished sub').
Proof.
  split.
  - destruct (recursiveSort_spec d c) as (c' & Hrun & Hsk & Hlv).
    exists c'. split; [done|]. split; [done|].
    eapply Forall2_impl; [exact Hlv|].
    intros xs xs' (st & Hst & <-). exists st. split; [done|]. split; [done|].
    destruct (bubbleSort_permutation_aux compare xs) as (st' & Hst' & Hperm).
    congruence.
  - intros d' n n' Hrun. cbn [recursiveSort] in Hrun.
    apply for_each_Forall2 in Hrun. split.
    + symmetry. by eapply Forall2_length.
    + intros i sub Hi.
      destruct (Forall2_lookup_l _ _ _ _ _ Hrun Hi) as (sub' & Hi' & Hsub).
      by exists sub'.
Qed.

End RecursiveSortSpec.

(** ** The nested printer *)

Section PrinterLemmas.
Local Open Scope string_scope.

Lemma append_nil_r (s : string) : s ++ "" = s.
Proof. induction s as [|c s IH]; simpl; congruence. Qed.

Lemma append_assoc (s1 s2 s3 : string) : (s1 ++ s2) ++ s3 = s1 ++ s2 ++ s3.
Proof. induction s1 as [|c s1 IH]; simpl; congruence. Qed.

Context {A : Type}.
Variable show : A -> string.

(** What a range-for loop of printing calls appends to the stream. *)
Lemma fold_left_print {X : Type} (f : X -> string -> string) (h : list X) :
  (forall sub o, f sub o = o ++ f sub "") ->
  forall os,
    fold_left (fun o sub => f sub o) h os =
    os ++ String.concat "" (map (fun sub => f sub "") h).
Proof.
  intros Hf. induction h as [|sub h IH]; intros os; simpl.
  - by rewrite append_nil_r.
  - rewrite IH, Hf, append_assoc. f_equal.
    destruct h as [|sub' h]; [by rewrite append_nil_r|done].
Qed.

(** The printer only appends to the stream. *)
Lemma printNDVector_appends d : forall (holder : ND A d) depth os,
  printNDVector show d holder depth os =
  os ++ printNDVector show d holder depth "".
Proof.
  induction d as [|d IH]; intros holder depth os; [done|].
  cbn [printNDVector].
  rewrite !(fold_left_print (fun sub o => printNDVector show d sub (depth + 1) o))
    by (intros; apply IH).
  by rewrite !append_assoc.
Qed.

(** The characters the container overload writes: the indentation, a line
    break, the opening bracket, the elements one level deeper, the
    indentation again, the closing bracket and a line break. *)
Lemma printNDVector_container d (holder : ND A (S d)) depth :
  printNDVector show (S d) holder depth "" =
  spaces (depth * 4) ++ newline ++ "{" ++
  String.concat "" (map (fun sub => printNDVector show d sub (depth + 1) "") holder) ++
  spaces (depth * 4) ++ "}" ++ newline.
Proof.
  cbn [printNDVector].
  rewrite (fold_left_print (fun sub o => printNDVector show d sub (depth + 1) o))
    by (intros; apply printNDVector_appends).
  by rewrite !append_assoc.
Qed.

End PrinterLemmas.

Section PrinterLayout.
Local Open Scope string_scope.
Local Open Scope Z_scope.

(** C7 (nested printer), as the code behaves.  Printing the nested
    container [[5,2]] writes four lines: an empty one; the opening bracket
    of the outer container followed by the four spaces that indent the
    inner one; the opening bracket of the inner container at the first
    column, followed on the same line by both scalars, each behind eight
    spaces, the four spaces of the inner container and its closing
    bracket; and the closing bracket of the outer container.  No opening
    bracket stands behind its indentation, and neither the inner brackets
    nor the scalars have a line of their own.  In general a container at
    [depth] is written as [depth * 4] spaces, a line break, the opening
    bracket, its elements at [depth + 1], [depth * 4] spaces, the closing
    bracket and a line break; a scalar as [depth * 4] spaces and its text,
    with nothing behind it. *)
Theorem printNDVector_brackets_not_indented :
  printNDVector show_int 2 [[5; 2]] 0 "" =
    newline ++ "{    " ++ newline ++
    "{        5        2    }" ++ newline ++
    "}" ++ newline /\
  printNDVector show_int 1 [5; 2] 0 "" = newline ++ "{    5    2}" ++ newline /\
  (forall (d : nat) (holder : ND Z (S d)) (depth : nat),
      printNDVector show_int (S d) holder depth "" =
      spaces (depth * 4) ++ newline ++ "{" ++
      String.concat ""
        (map (fun sub => printNDVector show_int d sub (depth + 1) "") holder) ++
      spaces (depth * 4) ++ "}" ++ newline) /\
  forall (x : Z) (depth : nat) (os : string),
    printNDVector show_int 0 x depth os = os ++ spaces (depth * 4) ++ show_int x.
Proof.
  split; [by vm_compute|]. split; [by vm_compute|].
  split; [apply printNDVector_container|done].
Qed.

End PrinterLayout.

(** ** Instances of the conditional theorems *)

Section Instances.
Import Comparators.
Local Open Scope Z_scope.

(** [std::greater] is a strict weak ordering and sorts [5,2,9,1,5,6]. *)
Lemma bubbleSort_order_establishment_witness :
  StrictWeakOrdering greater /\
  exists st, bubbleSort greater [5; 2; 9; 1; 5; 6] = Finished st /\
             no_adjacent_exchange greater (holder st).
Proof.
  split.
  - exact greater_swo.
  - exact (bubbleSort_order_establishment greater [5; 2; 9; 1; 5; 6] greater_swo).
Defined.

Lemma ascending_123 : no_adjacent_exchange greater [1; 2; 3].
Proof. apply ordered_no_adjacent_exchange. simpl. auto. Qed.

(** [1,2,3] is in order for [std::greater]: one pass, no exchange. *)
Lemma bubbleSort_sorted_input_witness :
  no_adjacent_exchange greater [1; 2; 3] /\
  ((exists st, bubbleSort greater [1; 2; 3] = Finished st /\
               holder st = [1; 2; 3] /\
               total_exchanges st = 0%nat /\
               (passes_run st <= 1)%nat /\
               ((2 <= length [1; 2; 3])%nat ->
                passes_run st = 1%nat /\
                total_comparisons st = (length [1; 2; 3] - 1)%nat)) /\
   (forall (l' : list Z) st' j ps,
       bubbleSort greater l' = Finished st' ->
       log st' !! j = Some ps -> exchanges ps = 0%nat ->
       S j = passes_run st')).
Proof.
  split.
  - exact ascending_123.
  - exact (bubbleSort_sorted_input greater [1; 2; 3] ascending_123).
Defined.

Lemma length_7 : (length [7] <= 1)%nat.
Proof. simpl. lia. Qed.

(** A one-element sequence is left alone, even by a comparator that always
    asks for an exchange. *)
Lemma bubbleSort_degenerate_noop_witness :
  (length [7] <= 1)%nat /\
  ((exists st, bubbleSort (fun _ _ : Z => true) [7] = Finished st /\
               holder st = [7] /\
               passes_run st = 0%nat /\
               total_comparisons st = 0%nat /\
               total_exchanges st = 0%nat) /\
   (forall l' : list Z,
       exists st', bubbleSort (fun _ _ : Z => true) l' = Finished st') /\
   (forall (l' : list Z) fuel,
       bubbleSort_fuel (fun _ _ : Z => true) fuel l' <> Fault)).
Proof.
  split.
  - exact length_7.
  - exact (bubbleSort_degenerate_noop (fun _ _ : Z => true) [7] length_7).
Defined.

End Instances.


(** ** Further properties of [bubbleSort] *)

Section BubbleSortMore.
Context {A : Type}.
Variable compare : A -> A -> bool.

Lemma ordered_Sorted (l : list A) : ordered compare l <-> Sorted (keeps compare) l.
Proof.
  induction l as [|x t IH]; [split; constructor|].
  destruct t as [|y t].
  - split; [repeat constructor|done].
  - split.
    + intros [Hxy Ht]. constructor; [by apply IH|by constructor].
    + intros Hs. inversion Hs as [|? ? Ht Hhd]; subst.
      inversion Hhd; subst. split; [done|by apply IH].
Qed.

Lemma swo_keeps_transitive : StrictWeakOrdering compare -> Transitive (keeps compare).
Proof. intros Hswo x y z. apply swo_neg_trans; done. Qed.

Lemma sort_result_strongly_sorted (l : list A) :
  StrictWeakOrdering compare ->
  StronglySorted (keeps compare) (sort_result compare l).1.
Proof.
  intros Hswo. pose proof (swo_keeps_transitive Hswo).
  apply Sorted_StronglySorted; [done|].
  by apply ordered_Sorted, sort_result_ordered.
Qed.

Lemma StronglySorted_lookup_lt (R : relation A) (l : list A) :
  StronglySorted R l ->
  forall i j x y, i < j -> l !! i = Some x -> l !! j = Some y -> R x y.
Proof.
  induction 1 as [|a l Hl IH Hall]; intros i j x y Hij Hi Hj; [done|].
  destruct j as [|j]; [lia|]. simpl in Hj. destruct i as [|i].
  - simplify_eq/=. rewrite Forall_forall in Hall. apply Hall.
    by eapply list_elem_of_lookup_2.
  - simpl in Hi. apply (IH i j); [lia|done..].
Qed.

Lemma sort_result_perm (l : list A) : (sort_result compare l).1 ≡ₚ l.
Proof.
  unfold sort_result. destruct (_ <? 2); [done|]. apply sort_passes_perm.
Qed.

(** A pass exchanges only pairs for which the comparator asks; a family of
    elements among which it never asks keeps its order. *)
Lemma bubble_pass_filter (P : A -> bool) k :
  (forall a b, P a = true -> P b = true -> compare a b = false) ->
  forall l, List.filter P (bubble_pass compare k l).1 = List.filter P l.
Proof.
  intros HP. induction k as [|k IH]; intros l; [done|].
  destruct l as [|a [|b t]]; try done. cbn [bubble_pass].
  destruct (compare a b) eqn:Hab; cbn [fst List.filter].
  - rewrite IH. cbn [List.filter].
    destruct (P a) eqn:Ha, (P b) eqn:Hb; try done.
    by rewrite (HP a b Ha Hb) in Hab.
  - by rewrite IH.
Qed.

Lemma sort_passes_filter (P : A -> bool) r n :
  (forall a b, P a = true -> P b = true -> compare a b = false) ->
  forall i l, List.filter P (sort_passes compare r n i l).1 = List.filter P l.
Proof.
  intros HP. induction r as [|r IH]; intros i l; [done|]. cbn [sort_passes].
  destruct (_ =? 0); cbn [fst].
  - by apply bubble_pass_filter.
  - rewrite IH. by apply bubble_pass_filter.
Qed.

(** On a sequence in order: nothing exchanged, nothing changed, at most one
    pass. *)
Lemma sort_result_ordered_input (l : list A) :
  ordered compare l ->
  (sort_result compare l).1 = l /\
  sum_list (exchanges <$> (sort_result compare l).2) = 0 /\
  length (sort_result compare l).2 <= 1.
Proof.
  intros Ho. unfold sort_result.
  destruct (Nat.ltb_spec (length l) 2) as [Hn|Hn].
  { simpl. repeat split; lia || done. }
  destruct (length l - 1) as [|r] eqn:Hr; [lia|].
  rewrite sort_passes_ordered_input by done. simpl. repeat split; lia || done.
Qed.

(** Under a strict weak ordering the call returns a permutation of its
    input in which no element must be exchanged with one behind it. *)
Lemma bubbleSort_returns_sorted_perm (l : list A) :
  StrictWeakOrdering compare ->
  exists st, bubbleSort compare l = Finished st /\
    holder st ≡ₚ l /\
    StronglySorted (keeps compare) (holder st).
Proof.
  intros Hswo. eexists. split; [apply bubbleSort_sort_result|]. cbn [holder].
  split; [apply sort_result_perm|by apply sort_result_strongly_sorted].
Qed.

(** X1.  Global order.  Under a strict weak ordering no element of the result
    must be exchanged with any element behind it, adjacent or not. *)
Theorem bubbleSort_globally_ordered (l : list A) :
  StrictWeakOrdering compare ->
  exists st, bubbleSort compare l = Finished st /\
    forall (i j : nat) (x y : A),
      i < j -> holder st !! i = Some x -> holder st !! j = Some y ->
      compare x y = false.
Proof.
  intros Hswo. eexists. split; [apply bubbleSort_sort_result|]. cbn [holder].
  intros i j x y. apply (StronglySorted_lookup_lt (keeps compare)).
  by apply sort_result_strongly_sorted.
Qed.

(** X2.  Stability.  With any comparator, elements among which the comparator
    never asks for an exchange come out in the order they went in. *)
Theorem bubbleSort_stable (P : A -> bool) (l : list A) :
  (forall a b, P a = true -> P b = true -> compare a b = false) ->
  exists st, bubbleSort compare l = Finished st /\
             List.filter P (holder st) = List.filter P l.
Proof.
  intros HP. eexists. split; [apply bubbleSort_sort_result|]. cbn [holder].
  unfold sort_result. destruct (_ <? 2); [done|].
  by apply sort_passes_filter.
Qed.

(** X3.  Idempotence.  Under a strict weak ordering, sorting the result once
    more returns it as it is, without an exchange and within one pass. *)
Theorem bubbleSort_idempotent (l : list A) :
  StrictWeakOrdering compare ->
  exists st st',
    bubbleSort compare l = Finished st /\
    bubbleSort compare (holder st) = Finished st' /\
    holder st' = holder st /\
    total_exchanges st' = 0 /\
    passes_run st' <= 1.
Proof.
  intros Hswo. do 2 eexists.
  split; [apply bubbleSort_sort_result|].
  split; [apply bubbleSort_sort_result|].
  cbn [holder]. unfold total_exchanges, passes_run. cbn [log].
  apply sort_result_ordered_input. by apply sort_result_ordered.
Qed.

(** X4.  Canonical result.  Under a strict weak ordering without ties (two
    elements neither of which must go behind the other are equal), the
    result depends only on which elements the input holds, not on their
    order. *)
Theorem bubbleSort_canonical (l1 l2 : list A) :
  StrictWeakOrdering compare ->
  (forall a b, compare a b = false -> compare b a = false -> a = b) ->
  l1 ≡ₚ l2 ->
  exists st1 st2,
    bubbleSort compare l1 = Finished st1 /\
    bubbleSort compare l2 = Finished st2 /\
    holder st1 = holder st2.
Proof.
  intros Hswo Htie Hperm. do 2 eexists.
  split; [apply bubbleSort_sort_result|].
  split; [apply bubbleSort_sort_result|]. cbn [holder].
  apply (StronglySorted_unique_strong (keeps compare)).
  - intros x y _ _. apply Htie.
  - by apply sort_result_strongly_sorted.
  - by apply sort_result_strongly_sorted.
  - by rewrite !sort_result_perm.
Qed.

End BubbleSortMore.

Section AlwaysExchange.
Context {A : Type}.


Lemma bubble_pass_always k : forall (c : A) (t : list A),
  k <= length t ->
  bubble_pass (fun _ _ : A => true) k (c :: t) = (take k t ++ c :: drop k t, k).
Proof.
  induction k as [|k IH]; intros c t Hk.
  - by rewrite take_0, drop_0.
  - destruct t as [|b t]; simpl in Hk; [lia|].
    cbn [bubble_pass]. rewrite IH by lia. done.
Qed.

Lemma sort_passes_always r n : forall i (p s : list A),
  length p = S r ->
  n - i - 1 = r ->
  (sort_passes (fun _ _ : A => true) r n i (p ++ s)).1 = reverse p ++ s /\
  length (sort_passes (fun _ _ : A => true) r n i (p ++ s)).2 = r /\
  2 * sum_list (comparisons <$> (sort_passes (fun _ _ : A => true) r n i (p ++ s)).2) = r * (r + 1) /\
  sum_list (exchanges <$> (sort_passes (fun _ _ : A => true) r n i (p ++ s)).2) =
  sum_list (comparisons <$> (sort_passes (fun _ _ : A => true) r n i (p ++ s)).2).
Proof.
  induction r as [|r IH]; intros i p s Hp Hr.
  - destruct p as [|c [|? ?]]; simplify_eq/=. done.
  - destruct p as [|c p]; [done|]. simpl in Hp.
    cbn [sort_passes]. rewrite Hr.
    change ((c :: p) ++ s) with (c :: p ++ s).
    rewrite bubble_pass_always by (rewrite length_app; lia).
    rewrite take_app_length', drop_app_length' by lia.
    cbn [fst snd Nat.eqb].
    destruct (IH (S i) p (c :: s) ltac:(lia) ltac:(lia)) as (H1 & H2 & H3 & H4).
    cbn [fst snd length fmap list_fmap comparisons exchanges].
    rewrite H1, H2. rewrite reverse_cons, <- app_assoc.
    split; [done|]. split; [done|].
    change (sum_list (?x :: ?l)) with (x + sum_list l).
    rewrite H4. split; [|done]. lia.
Qed.

(** X5.  The worst case.  With a comparator that always asks for an exchange,
    [bubbleSort] reverses the sequence; it runs all [n - 1] passes and
    makes exactly [n * (n - 1) / 2] comparisons, each followed by an
    exchange: the bound on the comparisons is attained. *)
Theorem bubbleSort_always_exchange_reverses (l : list A) :
  exists st,
    bubbleSort (fun _ _ : A => true) l = Finished st /\
    holder st = reverse l /\
    passes_run st = length l - 1 /\
    2 * total_comparisons st = length l * (length l - 1) /\
    total_exchanges st = total_comparisons st.
Proof.
  eexists. split; [apply bubbleSort_sort_result|].
  unfold passes_run, total_comparisons, total_exchanges, sort_result.
  cbn [holder log].
  destruct (Nat.ltb_spec (length l) 2) as [Hn|Hn].
  { destruct l as [|x [|y t]]; simpl in *; try lia; done. }
  destruct (sort_passes_always (length l - 1) (length l) 0 l []
              ltac:(lia) ltac:(lia)) as (H1 & H2 & H3 & H4).
  rewrite !app_nil_r in H1. rewrite app_nil_r in H2, H3, H4.
  replace (length l - 1 + 1) with (length l) in H3 by lia.
  rewrite H1, H2, H4, H3. repeat split; try done. apply Nat.mul_comm.
Qed.

End AlwaysExchange.

(** ** Further properties of the comparators *)

Section ComparatorMore.
Import Comparators Lambdas.
Local Open Scope Z_scope.

Lemma DivisibleBy3First_swo : StrictWeakOrdering DivisibleBy3First.
Proof.
  unfold DivisibleBy3First. split.
  - intros x. destruct (Z.rem x 3 =? 0); simpl; lia.
  - intros x y z.
    destruct (Z.rem x 3 =? 0), (Z.rem y 3 =? 0), (Z.rem z 3 =? 0);
      simpl; lia.
  - intros x y z.
    destruct (Z.rem x 3 =? 0), (Z.rem y 3 =? 0), (Z.rem z 3 =? 0);
      simpl; lia.
Qed.

Lemma EvenFirst_swo : StrictWeakOrdering EvenFirst.
Proof.
  unfold EvenFirst. split.
  - intros x. destruct (Z.rem x 2 =? 0); simpl; lia.
  - intros x y z.
    destruct (Z.rem x 2 =? 0), (Z.rem y 2 =? 0), (Z.rem z 2 =? 0);
      simpl; lia.
  - intros x y z.
    destruct (Z.rem x 2 =? 0), (Z.rem y 2 =? 0), (Z.rem z 2 =? 0);
      simpl; lia.
Qed.

Lemma less_lambda_swo : StrictWeakOrdering less_lambda.
Proof. unfold less_lambda. split; intros; lia. Qed.

Lemma proximity_lambda_swo : StrictWeakOrdering proximity_lambda.
Proof. unfold proximity_lambda. split; intros; lia. Qed.

Lemma StronglySorted_mono {A : Type} (R R' : relation A) (l : list A) :
  (forall x y, R x y -> R' x y) -> StronglySorted R l -> StronglySorted R' l.
Proof.
  intros HR. induction 1 as [|x l Hl IH Hall]; constructor; [done|].
  eapply Forall_impl; [exact Hall|]. intros y. apply HR.
Qed.

(** X9.  [DivisibleBy3First] under [bubbleSort].  The result is a permutation of
    the input in which no multiple of 3 stands behind a non-multiple, and of
    two elements of the same group the larger one comes first. *)
Theorem DivisibleBy3First_sorted_shape (l : list Z) :
  exists st,
    bubbleSort DivisibleBy3First l = Finished st /\
    holder st ≡ₚ l /\
    forall (i j : nat) (x y : Z),
      (i < j)%nat -> holder st !! i = Some x -> holder st !! j = Some y ->
      (Z.rem y 3 = 0 -> Z.rem x 3 = 0) /\
      ((Z.rem x 3 = 0 <-> Z.rem y 3 = 0) -> y <= x).
Proof.
  destruct (bubbleSort_returns_sorted_perm DivisibleBy3First l DivisibleBy3First_swo)
    as (st & Hrun & Hperm & Hsorted).
  exists st. split; [done|]. split; [done|]. intros i j x y Hij Hx Hy.
  pose proof (StronglySorted_lookup_lt _ _ Hsorted i j x y Hij Hx Hy) as Hk.
  unfold keeps, DivisibleBy3First in Hk.
  destruct (Z.eqb_spec (Z.rem x 3) 0), (Z.eqb_spec (Z.rem y 3) 0);
    simpl in Hk; split; try done; try lia; tauto.
Qed.

(** X10.  [EvenFirst] under [bubbleSort].  The result is a permutation of the
    input in which no even element stands behind an odd one, and of two
    elements of the same parity the larger one comes first. *)
Theorem EvenFirst_sorted_shape (l : list Z) :
  exists st,
    bubbleSort EvenFirst l = Finished st /\
    holder st ≡ₚ l /\
    forall (i j : nat) (x y : Z),
      (i < j)%nat -> holder st !! i = Some x -> holder st !! j = Some y ->
      (Z.rem y 2 = 0 -> Z.rem x 2 = 0) /\
      ((Z.rem x 2 = 0 <-> Z.rem y 2 = 0) -> y <= x).
Proof.
  destruct (bubbleSort_returns_sorted_perm EvenFirst l EvenFirst_swo)
    as (st & Hrun & Hperm & Hsorted).
  exists st. split; [done|]. split; [done|]. intros i j x y Hij Hx Hy.
  pose proof (StronglySorted_lookup_lt _ _ Hsorted i j x y Hij Hx Hy) as Hk.
  unfold keeps, EvenFirst in Hk.
  destruct (Z.eqb_spec (Z.rem x 2) 0), (Z.eqb_spec (Z.rem y 2) 0);
    simpl in Hk; split; try done; try lia; tauto.
Qed.

(** X11.  The three residue functors never tie: of two different integers,
    exactly one must go behind the other. *)
Theorem residue_functors_total (a b : Z) :
  a <> b ->
  OddFirst a b = negb (OddFirst b a) /\
  EvenFirst a b = negb (EvenFirst b a) /\
  DivisibleBy3First a b = negb (DivisibleBy3First b a).
Proof.
  intros Hab. unfold OddFirst, EvenFirst, DivisibleBy3First.
  destruct (Z.rem a 2 =? 0), (Z.rem b 2 =? 0),
           (Z.rem a 3 =? 0), (Z.rem b 3 =? 0); simpl; lia.
Qed.

(** X6.  The default comparator sorts.  With [std::greater], [bubbleSort]
    returns the ascending arrangement of its input, the one a merge sort
    by [<=] computes. *)
Theorem default_comparator_sorts (l : list Z) :
  exists st,
    bubbleSort greater l = Finished st /\
    holder st = merge_sort Z.le l.
Proof.
  destruct (bubbleSort_returns_sorted_perm greater l greater_swo)
    as (st & Hrun & Hperm & Hsorted).
  exists st. split; [done|].
  apply (StronglySorted_unique Z.le).
  - eapply StronglySorted_mono; [|exact Hsorted].
    intros x y. unfold keeps, greater. lia.
  - apply StronglySorted_merge_sort; apply _.
  - by rewrite Hperm, merge_sort_Permutation.
Qed.

(** X7.  The lambda [a < b] of [main] sorts downwards.  [bubbleSort] returns
    the descending arrangement of its input: the reverse of what the default
    comparator returns. *)
Theorem less_lambda_sorts_descending (l : list Z) :
  exists st st',
    bubbleSort less_lambda l = Finished st /\
    bubbleSort greater l = Finished st' /\
    holder st = reverse (holder st') /\
    forall (i j : nat) (x y : Z),
      (i < j)%nat -> holder st !! i = Some x -> holder st !! j = Some y ->
      y <= x.
Proof.
  destruct (bubbleSort_returns_sorted_perm less_lambda l less_lambda_swo)
    as (st & Hrun & Hperm & Hsorted).
  destruct (bubbleSort_returns_sorted_perm greater l greater_swo)
    as (st' & Hrun' & Hperm' & Hsorted').
  exists st, st'. split; [done|]. split; [done|].
  assert (Hdown : StronglySorted (flip Z.le) (holder st)).
  { eapply StronglySorted_mono; [|exact Hsorted].
    intros x y. unfold keeps, less_lambda, flip. lia. }
  split.
  - assert (Transitive (flip Z.le)) by (intros x y z; unfold flip; lia).
    apply (StronglySorted_unique_strong (flip Z.le)); [|done| |].
    + intros x y _ _. unfold flip. lia.
    + apply Sorted_StronglySorted; [done|].
      apply Sorted_reverse, StronglySorted_Sorted.
      eapply StronglySorted_mono; [|exact Hsorted'].
      intros x y. unfold keeps, greater. lia.
    + by rewrite reverse_Permutation, Hperm, Hperm'.
  - intros i j x y Hij Hx Hy.
    apply (StronglySorted_lookup_lt _ _ Hdown i j x y Hij Hx Hy).
Qed.

(** X8.  The lambda "proximity to 10" of [main].  On values for which the
    lambda's [int] arithmetic is defined, [bubbleSort] returns a
    permutation of the input in which the distance to 10 never decreases
    from an element to a later one. *)
Theorem proximity_lambda_sorts_by_distance (l : list Z) :
  Forall proximity_defined l ->
  exists st,
    bubbleSort proximity_lambda l = Finished st /\
    holder st ≡ₚ l /\
    Forall proximity_defined (holder st) /\
    forall (i j : nat) (x y : Z),
      (i < j)%nat -> holder st !! i = Some x -> holder st !! j = Some y ->
      Z.abs (x - 10) <= Z.abs (y - 10).
Proof.
  intros Hdef.
  destruct (bubbleSort_returns_sorted_perm proximity_lambda l proximity_lambda_swo)
    as (st & Hrun & Hperm & Hsorted).
  exists st. split; [done|]. split; [done|]. split; [by rewrite Hperm|].
  intros i j x y Hij Hx Hy.
  pose proof (StronglySorted_lookup_lt _ _ Hsorted i j x y Hij Hx Hy) as Hk.
  unfold keeps, proximity_lambda in Hk. lia.
Qed.

End ComparatorMore.

(** ** Further properties of [sumDigits] *)

Section SumDigitsMore.
Import Comparators.
Local Open Scope Z_scope.

Lemma sumDigits_loop_shift (fuel : nat) : forall n s s' v,
  sumDigits_loop fuel n s = Some v ->
  sumDigits_loop fuel n s' = Some (v - s + s').
Proof.
  induction fuel as [|fuel IH]; intros n s s' v; [done|]. simpl.
  destruct (n >? 0).
  - intros Hv. rewrite (IH _ _ (s' + Z.rem n 10) _ Hv). f_equal. lia.
  - intros [= <-]. f_equal. lia.
Qed.

Lemma sumDigits_loop_more_fuel (fuel : nat) : forall fuel' n s v,
  (fuel <= fuel')%nat ->
  sumDigits_loop fuel n s = Some v ->
  sumDigits_loop fuel' n s = Some v.
Proof.
  induction fuel as [|fuel IH]; intros fuel' n s v Hle; [done|].
  destruct fuel' as [|fuel']; [lia|]. simpl.
  destruct (n >? 0); [|done]. apply IH. lia.
Qed.

Lemma sumDigits_loop_step (fuel : nat) (n s : Z) :
  sumDigits_loop (S fuel) n s =
  if n >? 0 then sumDigits_loop fuel (Z.quot n 10) (s + Z.rem n 10) else Some s.
Proof. done. Qed.

(** One turn of the loop: the last digit is added to the digit sum of the
    remaining digits. *)
Lemma sumDigits_unfold (n : Z) :
  0 < n -> sumDigits n = Z.rem n 10 + sumDigits (Z.quot n 10).
Proof.
  intros Hn. pose proof (sumDigits_returns n) as Hrun.
  pose proof (sumDigits_returns (Z.quot n 10)) as Hq.
  unfold sumDigits_budget in Hrun at 1. rewrite sumDigits_loop_step in Hrun.
  destruct (Z.gtb_spec n 0); [|lia].
  apply (sumDigits_loop_shift _ _ _ 0) in Hrun.
  set (f := (S (Z.to_nat (Z.log2 n)) `max` sumDigits_budget (Z.quot n 10))%nat).
  apply (sumDigits_loop_more_fuel _ f) in Hrun; [|lia].
  apply (sumDigits_loop_more_fuel _ f) in Hq; [|lia].
  rewrite Hrun in Hq. injection Hq as Hq. lia.
Qed.

(** X12.  Appending a digit.  For [n >= 0] and a decimal digit [d], the digit sum
    of [10 * n + d] is that of [n] plus [d]. *)
Theorem sumDigits_append_digit (n d : Z) :
  0 <= n -> 0 <= d <= 9 ->
  sumDigits (10 * n + d) = sumDigits n + d.
Proof.
  intros Hn Hd. destruct (Z.eq_dec (10 * n + d) 0) as [H0|H0].
  - assert (n = 0) as -> by lia. assert (d = 0) as -> by lia. done.
  - rewrite sumDigits_unfold by lia.
    assert (Z.rem (10 * n + d) 10 = d) as ->.
    { rewrite Z.rem_mod_nonneg by lia.
      rewrite Z.add_comm, Z.mul_comm, Z.mod_add by lia.
      apply Z.mod_small. lia. }
    assert (Z.quot (10 * n + d) 10 = n) as ->.
    { rewrite Z.quot_div_nonneg by lia.
      rewrite Z.add_comm, Z.mul_comm, Z.div_add by lia.
      rewrite Z.div_small by lia. lia. }
    lia.
Qed.

(** X13.  Casting out nines.  For [n >= 0] the digit sum leaves the same
    remainder modulo 9 as [n] itself. *)
Theorem sumDigits_mod_9 (n : Z) :
  0 <= n -> sumDigits n mod 9 = n mod 9.
Proof.
  induction n as [n IH] using (well_founded_induction (Z.lt_wf 0)).
  intros Hn. destruct (Z.eq_dec n 0) as [->|Hn0]; [done|].
  rewrite sumDigits_unfold by lia.
  rewrite Z.rem_mod_nonneg, Z.quot_div_nonneg by lia.
  pose proof (Z.div_mod n 10 ltac:(lia)) as Hdm.
  pose proof (Z.mod_pos_bound n 10 ltac:(lia)).
  assert (Hq : 0 <= n / 10 < n).
  { split; [apply Z.div_pos; lia|apply Z.div_lt; lia]. }
  rewrite Z.add_mod, (IH (n / 10)) by lia.
  rewrite <- Z.add_mod by lia.
  rewrite Hdm at 3.
  replace (10 * (n / 10) + n mod 10) with (n mod 10 + n / 10 + (n / 10) * 9) by lia.
  by rewrite Z.mod_add by lia.
Qed.

Lemma sumDigits_pos_bounds (n : Z) :
  0 < n -> 1 <= sumDigits n <= n.
Proof.
  induction n as [n IH] using (well_founded_induction (Z.lt_wf 0)).
  intros Hn. rewrite sumDigits_unfold by lia.
  rewrite Z.rem_mod_nonneg, Z.quot_div_nonneg by lia.
  pose proof (Z.div_mod n 10 ltac:(lia)) as Hdm.
  pose proof (Z.mod_pos_bound n 10 ltac:(lia)).
  destruct (Z.eq_dec (n / 10) 0) as [Hq|Hq].
  - rewrite Hq in *. change (sumDigits 0) with 0. lia.
  - assert (0 < n / 10 < n).
    { split; [|apply Z.div_lt; lia].
      pose proof (Z.div_pos n 10). lia. }
    specialize (IH (n / 10) ltac:(lia) ltac:(lia)). lia.
Qed.

(** X14.  Which digit sums are zero.  The digit sum is zero exactly for
    [n <= 0]; for a positive [n] it lies between 1 and [n]. *)
Theorem sumDigits_zero_iff (n : Z) :
  (sumDigits n = 0 <-> n <= 0) /\ (0 < n -> 1 <= sumDigits n <= n).
Proof.
  split; [|apply sumDigits_pos_bounds]. split.
  - intros H0. destruct (Z.le_gt_cases n 0) as [|Hn]; [done|].
    pose proof (sumDigits_pos_bounds n Hn). lia.
  - apply sumDigits_nonpositive.
Qed.

Lemma sumDigits_digits (k : nat) : forall n,
  n < 10 ^ Z.of_nat k -> sumDigits n <= 9 * Z.of_nat k.
Proof.
  induction k as [|k IH]; intros n Hn.
  - rewrite sumDigits_nonpositive; simpl in *; lia.
  - destruct (Z.le_gt_cases n 0) as [H0|H0].
    { rewrite sumDigits_nonpositive; lia. }
    rewrite sumDigits_unfold by lia.
    rewrite Z.rem_mod_nonneg, Z.quot_div_nonneg by lia.
    pose proof (Z.mod_pos_bound n 10 ltac:(lia)).
    rewrite Nat2Z.inj_succ, Z.pow_succ_r in Hn by lia.
    assert (n / 10 < 10 ^ Z.of_nat k) by (apply Z.div_lt_upper_bound; lia).
    specialize (IH (n / 10) ltac:(lia)). lia.
Qed.

(** X15.  No overflow.  On every [int] (every [n < 2^31]) the digit sum is at
    most 90, so the [int] variable [sum] of the source cannot overflow. *)
Theorem sumDigits_int_bound (n : Z) :
  n < 2 ^ 31 -> 0 <= sumDigits n <= 90.
Proof.
  intros Hn. split; [apply sumDigits_nonneg|].
  apply (sumDigits_digits 10). simpl. lia.
Qed.

End SumDigitsMore.

(** ** [AlphabeticalPosition] *)

Section AlphabeticalPositionMore.
Import StringComparators.
Local Open Scope Z_scope.

Lemma position_loop_acc (char_signed : bool) (s : string) : forall pos,
  position_loop char_signed s pos = pos + position_loop char_signed s 0.
Proof.
  induction s as [|c s IH]; intros pos; cbn [position_loop]; [lia|].
  rewrite (IH (pos + _)), (IH (0 + _)). lia.
Qed.

Lemma position_loop_cons (char_signed : bool) (c : ascii) (s : string) :
  position_loop char_signed (String c s) 0 =
  (char_to_int char_signed c - 97 + 1) + position_loop char_signed s 0.
Proof.
  cbn [position_loop]. rewrite position_loop_acc.
  assert (char_to_int char_signed "a" = 97) as ->; [by destruct char_signed|lia].
Qed.


Lemma position_loop_perm (char_signed : bool) (a b : string) :
  list_ascii_of_string a ≡ₚ list_ascii_of_string b ->
  position_loop char_signed a 0 = position_loop char_signed b 0.
Proof.
  rewrite <- (string_of_list_ascii_of_string a) at 2.
  rewrite <- (string_of_list_ascii_of_string b) at 2.
  induction 1 as [|c l l' _ IH|c c' l|l l' l'' _ IH1 _ IH2]; cbn [string_of_list_ascii].
  - done.
  - by rewrite !position_loop_cons, IH.
  - rewrite !position_loop_cons. lia.
  - congruence.
Qed.

Lemma AlphabeticalPosition_swo (char_signed : bool) :
  StrictWeakOrdering (AlphabeticalPosition char_signed).
Proof. unfold AlphabeticalPosition. split; intros; lia. Qed.


Lemma length_list_ascii_of_string (s : string) :
  length (list_ascii_of_string s) = String.length s.
Proof. induction s as [|c s IH]; simpl; congruence. Qed.

Lemma char_to_int_range (char_signed : bool) (c : ascii) :
  -128 <= char_to_int char_signed c <= 255.
Proof.
  unfold char_to_int. pose proof (nat_ascii_bounded c).
  destruct (char_signed && _) eqn:Hs; [|lia].
  apply andb_prop in Hs as [_ Hs]. apply Z.leb_le in Hs. lia.
Qed.

Lemma position_loop_range (char_signed : bool) (s : string) :
  -224 * Z.of_nat (String.length s) <= position_loop char_signed s 0
    <= 159 * Z.of_nat (String.length s).
Proof.
  induction s as [|c s IH]; [simpl; lia|].
  rewrite position_loop_cons. cbn [String.length].
  pose proof (char_to_int_range char_signed c). lia.
Qed.

(** X17.  No overflow.  On a string of fewer than [2^23] characters the position
    sum is an [int], whatever the characters and the signedness of [char];
    every prefix being such a string, so is every partial sum of the
    loop. *)
Theorem AlphabeticalPosition_no_overflow (char_signed : bool) (s : string) :
  short_string s ->
  - 2 ^ 31 < position_loop char_signed s 0 < 2 ^ 31.
Proof.
  unfold short_string. intros Hs.
  pose proof (position_loop_range char_signed s). lia.
Qed.

(** X18.  Anagrams tie.  Two strings (short enough for the [int] sums) made of
    the same characters have the same position sum, so the comparator never
    asks to exchange them, in either order. *)
Theorem AlphabeticalPosition_anagrams_tie (char_signed : bool) (a b : string) :
  short_string a ->
  list_ascii_of_string a ≡ₚ list_ascii_of_string b ->
  short_string b /\
  AlphabeticalPosition char_signed a b = false /\
  AlphabeticalPosition char_signed b a = false.
Proof.
  intros Ha Hperm. split.
  { unfold short_string in *. apply Permutation_length in Hperm.
    rewrite <- !length_list_ascii_of_string. rewrite <- Hperm.
    by rewrite length_list_ascii_of_string. }
  unfold AlphabeticalPosition.
  rewrite (position_loop_perm char_signed a b Hperm). lia.
Qed.

(** X19.  [AlphabeticalPosition] under [bubbleSort].  On strings short enough for
    the [int] sums, the result is a permutation of the input in which the
    position sum never increases from a string to a later one, and strings
    of equal position sum keep the order they had in the input. *)
Theorem AlphabeticalPosition_sorts_descending (char_signed : bool) (l : list string) :
  Forall short_string l ->
  exists st,
    bubbleSort (AlphabeticalPosition char_signed) l = Finished st /\
    holder st ≡ₚ l /\
    (forall (i j : nat) (x y : string),
        (i < j)%nat -> holder st !! i = Some x -> holder st !! j = Some y ->
        position_loop char_signed y 0 <= position_loop char_signed x 0) /\
    forall v : Z,
      List.filter (fun x => position_loop char_signed x 0 =? v) (holder st) =
      List.filter (fun x => position_loop char_signed x 0 =? v) l.
Proof.
  intros _.
  destruct (bubbleSort_returns_sorted_perm _ l (AlphabeticalPosition_swo char_signed))
    as (st & Hrun & Hperm & Hsorted).
  exists st. split; [done|]. split; [done|]. split.
  - intros i j x y Hij Hx Hy.
    pose proof (StronglySorted_lookup_lt _ _ Hsorted i j x y Hij Hx Hy) as Hk.
    unfold keeps, AlphabeticalPosition in Hk. lia.
  - intros v. rewrite bubbleSort_sort_result in Hrun. injection Hrun as <-.
    cbn [holder]. unfold sort_result. destruct (_ <? 2)%nat; [done|].
    apply sort_passes_filter. intros a b Ha Hb.
    unfold AlphabeticalPosition. lia.
Qed.

End AlphabeticalPositionMore.

(** ** Further properties of [recursiveSort] *)

Section RecursiveSortMore.
Context {A : Type}.
Variable compare : A -> A -> bool.

(** A container all of whose flat sequences are in order is returned as it
    is. *)
Lemma recursiveSort_ordered_input d : forall c : ND A (S d),
  Forall (ordered compare) (leaves d c) ->
  recursiveSort compare d c = Finished c.
Proof.
  induction d as [|d IH]; intros c Hc.
  - cbn [leaves] in Hc. apply Forall_cons in Hc as [Hc _].
    cbn [recursiveSort]. rewrite bubbleSort_sort_result. cbn.
    by destruct (sort_result_ordered_input compare c Hc) as [-> _].
  - cbn [recursiveSort]. apply for_each_Forall2.
    induction c as [|sub c IHc]; [constructor|].
    cbn [leaves fmap list_fmap concat] in Hc.
    apply Forall_app in Hc as [Hsub Hc].
    constructor; [by apply IH|by apply IHc].
Qed.

(** Under a strict weak ordering every flat sequence of the result is in
    order. *)
Lemma recursiveSort_leaves_ordered_aux (Hswo : StrictWeakOrdering compare) d :
  forall c c' : ND A (S d),
    recursiveSort compare d c = Finished c' ->
    Forall (ordered compare) (leaves d c').
Proof.
  intros c c' Hrun.
  destruct (recursiveSort_spec compare d c) as (c'' & Hrun' & _ & Hlv).
  assert (c'' = c') as -> by congruence. clear Hrun Hrun'.
  induction Hlv as [|xs xs' ls ls' (st & Hst & <-) _ IH]; constructor; [|done].
  rewrite bubbleSort_sort_result in Hst. injection Hst as <-.
  by apply sort_result_ordered.
Qed.

(** X20.  Order in every flat sequence.  Under a strict weak ordering,
    [recursiveSort] returns a container each of whose flat sequences of
    scalars is a permutation of the one in its place in the input in which
    no element must be exchanged with a later one. *)
Theorem recursiveSort_orders_every_leaf (d : nat) (c : ND A (S d)) :
  StrictWeakOrdering compare ->
  exists c' : ND A (S d),
    recursiveSort compare d c = Finished c' /\
    Forall2 (fun xs xs' =>
               xs' ≡ₚ xs /\
               forall (i j : nat) (x y : A),
                 i < j -> xs' !! i = Some x -> xs' !! j = Some y ->
                 compare x y = false)
            (leaves d c) (leaves d c').
Proof.
  intros Hswo.
  destruct (recursiveSort_spec compare d c) as (c' & Hrun & _ & Hlv).
  exists c'. split; [done|].
  eapply Forall2_impl; [exact Hlv|].
  intros xs xs' (st & Hst & <-).
  rewrite bubbleSort_sort_result in Hst. injection Hst as <-. cbn [holder].
  split; [apply sort_result_perm|].
  intros i j x y. apply (StronglySorted_lookup_lt (keeps compare)).
  by apply sort_result_strongly_sorted.
Qed.


(** X22.  Idempotence.  Under a strict weak ordering, applying [recursiveSort] to
    its own result returns that result unchanged. *)
Theorem recursiveSort_idempotent (d : nat) (c : ND A (S d)) :
  StrictWeakOrdering compare ->
  exists c' : ND A (S d),
    recursiveSort compare d c = Finished c' /\
    recursiveSort compare d c' = Finished c'.
Proof.
  intros Hswo.
  destruct (recursiveSort_spec compare d c) as (c' & Hrun & _).
  exists c'. split; [done|].
  apply recursiveSort_ordered_input.
  by eapply recursiveSort_leaves_ordered_aux.
Qed.

End RecursiveSortMore.

(** ** Further properties of the printers *)

Section PrinterMore.
Local Open Scope string_scope.

Lemma count_char_app (c : ascii) (s1 s2 : string) :
  count_char c (s1 ++ s2) = count_char c s1 + count_char c s2.
Proof. induction s1 as [|c' s1 IH]; simpl; [done|]. rewrite IH. lia. Qed.

Lemma count_char_spaces (c : ascii) (n : nat) :
  count_char c (spaces n) = if Ascii.eqb c " " then n else 0.
Proof.
  induction n as [|n IH]; simpl; [by destruct (Ascii.eqb c " ")|].
  rewrite IH. by destruct (Ascii.eqb c " ").
Qed.

Lemma count_char_concat (c : ascii) (l : list string) :
  count_char c (String.concat "" l) = sum_list (count_char c <$> l).
Proof.
  induction l as [|s l IH]; [done|]. destruct l as [|s' l].
  - simpl. lia.
  - change (String.concat "" (s :: s' :: l))
      with (s ++ "" ++ String.concat "" (s' :: l)).
    rewrite !count_char_app, IH. simpl. lia.
Qed.

Lemma sum_count_map {X : Type} (c : ascii) (h : X -> string) (g : X -> nat)
    (l : list X) :
  (forall x, count_char c (h x) = g x) ->
  sum_list (count_char c <$> map h l) = sum_list (g <$> l).
Proof.
  intros Hg. induction l as [|x l IH]; [done|].
  cbn [map fmap list_fmap].
  change (count_char c (h x) + sum_list (count_char c <$> map h l) =
          g x + sum_list (g <$> l)).
  by rewrite Hg, IH.
Qed.

Lemma sum_list_scale {X : Type} (k : nat) (f : X -> nat) (l : list X) :
  sum_list ((fun x => k * f x) <$> l) = k * sum_list (f <$> l).
Proof.
  induction l as [|x l IH]; [simpl; lia|].
  change (k * f x + sum_list ((fun x => k * f x) <$> l) =
          k * (f x + sum_list (f <$> l))).
  rewrite IH. lia.
Qed.

Lemma line_break_char : ascii_of_nat 10 = "010"%char.
Proof. by vm_compute. Qed.

(** The text of an [int] holds digits and at most a minus sign. *)
Lemma count_char_string_of_uint (c : ascii) (u : Decimal.uint) :
  c = " "%char \/ c = "{"%char \/ c = "}"%char \/ c = ascii_of_nat 10 ->
  count_char c (NilEmpty.string_of_uint u) = 0.
Proof.
  intros [-> | [-> | [-> | ->]]]; induction u; simpl; done.
Qed.

Lemma count_char_show_int (c : ascii) (n : Z) :
  c = " "%char \/ c = "{"%char \/ c = "}"%char \/ c = ascii_of_nat 10 ->
  count_char c (show_int n) = 0.
Proof.
  intros Hc. unfold show_int, NilZero.string_of_int, NilZero.string_of_uint.
  assert (Hm : Ascii.eqb c "-" = false)
    by (by destruct Hc as [-> | [-> | [-> | ->]]]).
  assert (H0 : count_char c "0" = 0)
    by (by destruct Hc as [-> | [-> | [-> | ->]]]).
  destruct (Z.to_int n) as [u|u]; destruct u;
    try apply H0; cbn [count_char]; rewrite ?Hm;
    by rewrite ?(count_char_string_of_uint c _ Hc).
Qed.

(** X23.  Depth-faithful printing.  In what [printNDVector] writes for a value
    of [int] scalars there is one opening and one closing bracket per
    container, two line breaks per container, and four spaces per level of
    indentation of every scalar and of every bracket. *)
Theorem printNDVector_counts (d : nat) (holder : ND Z d) (depth : nat) :
  count_char "{" (printNDVector show_int d holder depth "") = containers d holder /\
  count_char "}" (printNDVector show_int d holder depth "") = containers d holder /\
  count_char (ascii_of_nat 10) (printNDVector show_int d holder depth "") =
    2 * containers d holder /\
  count_char " " (printNDVector show_int d holder depth "") =
    4 * indentation d holder depth.
Proof.
  revert holder depth. induction d as [|d IH]; intros holder depth.
  - cbn [printNDVector containers indentation].
    rewrite !count_char_app, !count_char_spaces, !count_char_show_int by tauto.
    rewrite !line_break_char. cbn. lia.
  - rewrite printNDVector_container.
    rewrite !count_char_app, !count_char_spaces, !count_char_concat.
    rewrite (sum_count_map "{" _ (containers d)) by (intros; apply IH).
    rewrite (sum_count_map "}" _ (containers d)) by (intros; apply IH).
    rewrite (sum_count_map (ascii_of_nat 10) _ (fun x => 2 * containers d x))
      by (intros; apply IH).
    rewrite (sum_count_map " " _ (fun x => 4 * indentation d x (depth + 1)))
      by (intros; apply IH).
    cbn [containers indentation].
    rewrite !sum_list_scale. unfold newline. rewrite !line_break_char.
    cbn. lia.
Qed.

(** X24.  [printContainer] on [int] elements appends, to what was written, the
    text of every element followed by one space, in order, and then one
    line break: as many spaces as elements, and no other line break. *)
Theorem printContainer_layout (holder : list Z) (os : string) :
  printContainer show_int holder os =
    os ++ String.concat "" (map (fun item => show_int item ++ " ") holder) ++ newline /\
  count_char " " (String.concat "" (map (fun item => show_int item ++ " ") holder))
    = length holder /\
  count_char (ascii_of_nat 10)
    (String.concat "" (map (fun item => show_int item ++ " ") holder)) = 0.
Proof.
  split; [|split].
  - unfold printContainer.
    rewrite (fold_left_print (fun item o => o ++ show_int item ++ " ")) by done.
    by rewrite append_assoc.
  - rewrite count_char_concat.
    rewrite (sum_count_map " " _ (fun _ => 1)).
    + induction holder as [|x l IH]; [done|].
      change (1 + sum_list ((fun _ => 1) <$> l) = S (length l)). by rewrite IH.
    + intros x. rewrite count_char_app, count_char_show_int by tauto. done.
  - rewrite count_char_concat.
    rewrite (sum_count_map (ascii_of_nat 10) _ (fun _ => 0)).
    + induction holder as [|x l IH]; [done|].
      change (0 + sum_list ((fun _ => 0) <$> l) = 0). by rewrite IH.
    + intros x. rewrite count_char_app, count_char_show_int by tauto. done.
Qed.

End PrinterMore.

(** ** Instances of the further conditional theorems *)

Section MoreInstances.
Import Comparators Lambdas StringComparators.
Local Open Scope Z_scope.

Lemma bubbleSort_globally_ordered_witness :
  StrictWeakOrdering greater /\
  exists st, bubbleSort greater [5; 2; 9; 1; 5; 6] = Finished st /\
    forall (i j : nat) (x y : Z),
      (i < j)%nat -> holder st !! i = Some x -> holder st !! j = Some y ->
      greater x y = false.
Proof.
  split.
  - exact greater_swo.
  - exact (bubbleSort_globally_ordered greater [5; 2; 9; 1; 5; 6] greater_swo).
Defined.

Lemma digit_sum_3_never_exchanged (a b : Z) :
  (sumDigits a =? 3) = true -> (sumDigits b =? 3) = true ->
  SumOfDigits a b = false.
Proof. unfold SumOfDigits. lia. Qed.

(** The elements of digit sum 3 keep their order under [SumOfDigits]. *)
Lemma bubbleSort_stable_witness :
  (forall a b, (sumDigits a =? 3) = true -> (sumDigits b =? 3) = true ->
               SumOfDigits a b = false) /\
  exists st, bubbleSort SumOfDigits [12; 5; 21; 30] = Finished st /\
             List.filter (fun x => sumDigits x =? 3) (holder st) =
             List.filter (fun x => sumDigits x =? 3) [12; 5; 21; 30].
Proof.
  split.
  - exact digit_sum_3_never_exchanged.
  - exact (bubbleSort_stable SumOfDigits (fun x => sumDigits x =? 3)
             [12; 5; 21; 30] digit_sum_3_never_exchanged).
Defined.

Lemma bubbleSort_idempotent_witness :
  StrictWeakOrdering greater /\
  exists st st',
    bubbleSort greater [3; 1; 2] = Finished st /\
    bubbleSort greater (holder st) = Finished st' /\
    holder st' = holder st /\
    total_exchanges st' = 0%nat /\
    (passes_run st' <= 1)%nat.
Proof.
  split.
  - exact greater_swo.
  - exact (bubbleSort_idempotent greater [3; 1; 2] greater_swo).
Defined.

Lemma greater_no_ties (a b : Z) :
  greater a b = false -> greater b a = false -> a = b.
Proof. unfold greater. lia. Qed.

Lemma perm_21_12 : [2; 1] ≡ₚ [1; 2].
Proof. apply perm_swap. Qed.

Lemma bubbleSort_canonical_witness :
  StrictWeakOrdering greater /\
  (forall a b, greater a b = false -> greater b a = false -> a = b) /\
  [2; 1] ≡ₚ [1; 2] /\
  exists st1 st2,
    bubbleSort greater [2; 1] = Finished st1 /\
    bubbleSort greater [1; 2] = Finished st2 /\
    holder st1 = holder st2.
Proof.
  split; [exact greater_swo|]. split; [exact greater_no_ties|].
  split; [exact perm_21_12|].
  exact (bubbleSort_canonical greater [2; 1] [1; 2]
           greater_swo greater_no_ties perm_21_12).
Defined.

Lemma one_is_not_two : 1 <> 2.
Proof. lia. Qed.

Lemma residue_functors_total_witness :
  1 <> 2 /\
  OddFirst 1 2 = negb (OddFirst 2 1) /\
  EvenFirst 1 2 = negb (EvenFirst 2 1) /\
  DivisibleBy3First 1 2 = negb (DivisibleBy3First 2 1).
Proof.
  split.
  - exact one_is_not_two.
  - exact (residue_functors_total 1 2 one_is_not_two).
Defined.

Lemma proximity_defined_sample : Forall proximity_defined [1; 20; 5].
Proof. repeat constructor; unfold proximity_defined; lia. Qed.

Lemma proximity_lambda_sorts_by_distance_witness :
  Forall proximity_defined [1; 20; 5] /\
  exists st,
    bubbleSort proximity_lambda [1; 20; 5] = Finished st /\
    holder st ≡ₚ [1; 20; 5] /\
    Forall proximity_defined (holder st) /\
    forall (i j : nat) (x y : Z),
      (i < j)%nat -> holder st !! i = Some x -> holder st !! j = Some y ->
      Z.abs (x - 10) <= Z.abs (y - 10).
Proof.
  split.
  - exact proximity_defined_sample.
  - exact (proximity_lambda_sorts_by_distance [1; 20; 5] proximity_defined_sample).
Defined.

Lemma nonneg_12 : 0 <= 12.
Proof. lia. Qed.

Lemma digit_3 : 0 <= 3 <= 9.
Proof. lia. Qed.

Lemma sumDigits_append_digit_witness :
  0 <= 12 /\ 0 <= 3 <= 9 /\ sumDigits (10 * 12 + 3) = sumDigits 12 + 3.
Proof.
  split; [exact nonneg_12|]. split; [exact digit_3|].
  exact (sumDigits_append_digit 12 3 nonneg_12 digit_3).
Defined.

Lemma nonneg_1234 : 0 <= 1234.
Proof. lia. Qed.

Lemma sumDigits_mod_9_witness :
  0 <= 1234 /\ sumDigits 1234 mod 9 = 1234 mod 9.
Proof.
  split.
  - exact nonneg_1234.
  - exact (sumDigits_mod_9 1234 nonneg_1234).
Defined.

Lemma int_max_is_int : 2147483647 < 2 ^ 31.
Proof. lia. Qed.

Lemma sumDigits_int_bound_witness :
  2147483647 < 2 ^ 31 /\ 0 <= sumDigits 2147483647 <= 90.
Proof.
  split.
  - exact int_max_is_int.
  - exact (sumDigits_int_bound 2147483647 int_max_is_int).
Defined.



Lemma anagram_ab_ba :
  list_ascii_of_string "ab" ≡ₚ list_ascii_of_string "ba".
Proof. apply perm_swap. Qed.

Lemma short_ab : short_string "ab".
Proof. unfold short_string. simpl. lia. Qed.

Lemma AlphabeticalPosition_no_overflow_witness :
  short_string "ab" /\ - 2 ^ 31 < position_loop true "ab" 0 < 2 ^ 31.
Proof.
  split.
  - exact short_ab.
  - exact (AlphabeticalPosition_no_overflow true "ab" short_ab).
Defined.

Lemma AlphabeticalPosition_anagrams_tie_witness :
  short_string "ab" /\
  list_ascii_of_string "ab" ≡ₚ list_ascii_of_string "ba" /\
  short_string "ba" /\
  AlphabeticalPosition true "ab" "ba" = false /\
  AlphabeticalPosition true "ba" "ab" = false.
Proof.
  split; [exact short_ab|]. split; [exact anagram_ab_ba|].
  exact (AlphabeticalPosition_anagrams_tie true "ab" "ba" short_ab anagram_ab_ba).
Defined.

Lemma short_words : Forall short_string ["cab"; "a"; "zz"]%string.
Proof. repeat constructor; unfold short_string; simpl; lia. Qed.

Lemma AlphabeticalPosition_sorts_descending_witness :
  Forall short_string ["cab"; "a"; "zz"]%string /\
  exists st,
    bubbleSort (AlphabeticalPosition true) ["cab"; "a"; "zz"]%string = Finished st /\
    holder st ≡ₚ ["cab"; "a"; "zz"]%string /\
    (forall (i j : nat) (x y : string),
        (i < j)%nat -> holder st !! i = Some x -> holder st !! j = Some y ->
        position_loop true y 0 <= position_loop true x 0) /\
    forall v : Z,
      List.filter (fun x => position_loop true x 0 =? v) (holder st) =
      List.filter (fun x => position_loop true x 0 =? v) ["cab"; "a"; "zz"]%string.
Proof.
  split.
  - exact short_words.
  - exact (AlphabeticalPosition_sorts_descending true ["cab"; "a"; "zz"]%string
             short_words).
Defined.

Lemma recursiveSort_orders_every_leaf_witness :
  StrictWeakOrdering greater /\
  exists c' : ND Z 2,
    recursiveSort greater 1 [[5; 2; 9]; [6; 3; 8]] = Finished c' /\
    Forall2 (fun xs xs' =>
               xs' ≡ₚ xs /\
               forall (i j : nat) (x y : Z),
                 (i < j)%nat -> xs' !! i = Some x -> xs' !! j = Some y ->
                 greater x y = false)
            (leaves 1 [[5; 2; 9]; [6; 3; 8]]) (leaves 1 c').
Proof.
  split.
  - exact greater_swo.
  - exact (recursiveSort_orders_every_leaf greater 1 [[5; 2; 9]; [6; 3; 8]]
             greater_swo).
Defined.

Lemma recursiveSort_idempotent_witness :
  StrictWeakOrdering greater /\
  exists c' : ND Z 2,
    recursiveSort greater 1 [[5; 2; 9]; [6; 3; 8]] = Finished c' /\
    recursiveSort greater 1 c' = Finished c'.
Proof.
  split.
  - exact greater_swo.
  - exact (recursiveSort_idempotent greater 1 [[5; 2; 9]; [6; 3; 8]] greater_swo).
Defined.

End MoreInstances.
